(** * Shallow embedding of the lottery results server (server.js)

    The server keeps, per lottery game, a window of the most recent
    contest records in a JSON file ([db.json]), fills it once at start-up
    ([initializeDatabase]), extends and trims it on every scheduled tick
    ([updateDatabase]) and serves it over HTTP ([GET /api/resultados/...]).

    Modelling choices:
    - a contest record is the upstream JSON object; only its integer field
      [numero] is inspected, the other fields are carried as opaque text;
    - the parsed store document ([database]) is a JS object mapping game
      names to arrays of records; key order matters for [JSON.stringify],
      so it is an association list with JS property semantics
      ([database[k]] and [database[k] = v]);
    - [Array.prototype.sort] is stable; with a consistent comparator its
      result is the unique stable sorted permutation, computed here by a
      stable insertion sort driven by the same comparator;
    - side effects (upstream requests, file reads and writes, console
      output) are recorded in an explicit trace of events;
    - [JSON.parse] and [JSON.stringify(_, null, 2)] are library functions,
      kept as parameters of the section that uses them. *)

From Stdlib Require Import ZArith List String Bool Lia.
From Stdlib Require Import Sorting.Permutation Sorting.Sorted Lists.Finite.
Import ListNotations.
Open Scope Z_scope.

(** ** Data model *)

Record Contest := mkContest {
  numero : Z;          (* contest number, [data.numero] *)
  dados : string       (* the remaining upstream fields, preserved verbatim *)
}.

(** The parsed store document: [{ [game]: ContestRecord[] }]. *)
Definition Db := list (string * list Contest).

(** [database[k]] ([undefined] is [None]). *)
Fixpoint js_get (o : Db) (k : string) : option (list Contest) :=
  match o with
  | [] => None
  | (k', v) :: o' => if String.eqb k k' then Some v else js_get o' k
  end.

(** [database[k] = v]: an existing property keeps its place, a new one is
    appended (insertion order of string keys). *)
Fixpoint js_set (o : Db) (k : string) (v : list Contest) : Db :=
  match o with
  | [] => [(k, v)]
  | (k', v') :: o' =>
      if String.eqb k k' then (k', v) :: o' else (k', v') :: js_set o' k v
  end.

(** [database[game] || []] *)
Definition get_or_nil (o : Db) (k : string) : list Contest :=
  match js_get o k with Some v => v | None => [] end.

Definition LOTTERY_GAMES : list string :=
  ["lotofacil"; "megasena"; "maismilionaria"; "quina"; "lotomania";
   "timemania"; "duplasena"; "diadesorte"; "supersete"]%string.

Definition CONTESTS_TO_STORE : nat := 500.

(** ** Effects *)

Inductive Log :=
| LogInfo (msg : string)     (* console.log *)
| LogWarn (msg : string)     (* console.warn *)
| LogError (msg : string).   (* console.error *)

Inductive Eff :=
| EffFetch (game : string) (contestNumber : option Z)  (* one upstream request *)
| EffRead                                               (* fs.readFile(DB_PATH) *)
| EffWrite (text : string)                              (* fs.writeFile(DB_PATH, text) *)
| EffLog (l : Log).

(** The content of [db.json] after a trace of effects ([None]: no file). *)
Fixpoint file_after (file : option string) (tr : list Eff) : option string :=
  match tr with
  | [] => file
  | EffWrite s :: tr' => file_after (Some s) tr'
  | _ :: tr' => file_after file tr'
  end.

Definition fetches (tr : list Eff) : list (string * option Z) :=
  flat_map (fun e => match e with EffFetch g n => [(g, n)] | _ => [] end) tr.

Definition writes (tr : list Eff) : list string :=
  flat_map (fun e => match e with EffWrite s => [s] | _ => [] end) tr.

Definition reads (tr : list Eff) : nat :=
  List.length (filter (fun e => match e with EffRead => true | _ => false end) tr).

(** ** Array helpers *)

(** [arr.sort(cmp)]: stable sort driven by the comparator. *)
Fixpoint insert_by (cmp : Contest -> Contest -> Z) (x : Contest) (l : list Contest)
  : list Contest :=
  match l with
  | [] => [x]
  | y :: l' => if cmp x y <=? 0 then x :: y :: l' else y :: insert_by cmp x l'
  end.

Definition sort_by (cmp : Contest -> Contest -> Z) (l : list Contest) : list Contest :=
  fold_right (insert_by cmp) [] l.

(** [(a, b) => a.numero - b.numero] *)
Definition cmp_asc (a b : Contest) : Z := numero a - numero b.
(** [(a, b) => b.numero - a.numero] *)
Definition cmp_desc (a b : Contest) : Z := numero b - numero a.

(** [results.filter(r => r !== null)] *)
Fixpoint filter_some {A} (l : list (option A)) : list A :=
  match l with
  | [] => []
  | Some a :: l' => a :: filter_some l'
  | None :: l' => filter_some l'
  end.

(** [for (let num = lo; num <= hi; num++)] *)
Definition range_incl (lo hi : Z) : list Z :=
  map (fun i => lo + Z.of_nat i) (seq 0 (Z.to_nat (hi - lo + 1))).

(** [arr.length > 0 ? Math.max(...arr.map(c => c.numero)) : 0] *)
Definition max_numero (l : list Contest) : Z :=
  match l with
  | [] => 0
  | c :: l' => fold_left (fun m x => Z.max m (numero x)) l' (numero c)
  end.

(** ** Contest fetcher: [fetchContestData(game, contestNumber = null)] *)

(** What the upstream answers at
    [.../portaldeloterias/api/${game}/${contestNumber || ''}]: either the
    request promise rejects (network failure, or [response.json()]
    rejecting while the body is read), or a response with an HTTP status
    and, per the upstream interface, a JSON object with an integer
    [numero]. *)
Inductive NetResult :=
| NetFailure (message : string)
| NetResponse (status : Z) (data : Contest).

(** [contestNumber || '']: [null] and [0] both request the latest contest. *)
Definition url_arg (contestNumber : option Z) : option Z :=
  match contestNumber with
  | Some n => if n =? 0 then None else Some n
  | None => None
  end.

Definition Net := string -> option Z -> NetResult.

(** [response.ok] *)
Definition response_ok (status : Z) : bool := (200 <=? status) && (status <=? 299).

(** Outcome of a JS statement block: normal completion or a thrown error. *)
Inductive Completion (A : Type) :=
| Normal (a : A)
| Thrown (message : string).
Arguments Normal {A} a.
Arguments Thrown {A} message.

(** The body of the [try] block. *)
Definition fetch_try (net : Net) (game : string) (contestNumber : option Z)
  : Completion (option Contest * list Log) :=
  match net game (url_arg contestNumber) with
  | NetFailure e => Thrown e
  | NetResponse status data =>
      if negb (response_ok status) then
        Normal (None, [LogError "Erro ao buscar: Status"])
      else if numero data =? 0 then Normal (None, [])
      else Normal (Some data, [])
  end.

(** [try { ... } catch (error) { console.error(...); return null; }] *)
Definition fetchContestData (net : Net) (game : string) (contestNumber : option Z)
  : option Contest * list Log :=
  match fetch_try net game contestNumber with
  | Normal r => r
  | Thrown e => (None, [LogError ("Falha na requisicao: " ++ e)])
  end.

(** The synchronizers only use the value [fetchContestData] resolves to. *)
Definition Fetcher := string -> option Z -> option Contest.

Definition fetcher_of (net : Net) : Fetcher :=
  fun game n => fst (fetchContestData net game n).

(** ** Per-game loop shared by both synchronizers:
    [for (const game of LOTTERY_GAMES) { ... }] over an accumulated
    in-memory document. *)
Fixpoint run_games (step : Db -> string -> Db * list Eff) (d : Db) (gs : list string)
  : Db * list Eff :=
  match gs with
  | [] => (d, [])
  | g :: gs' =>
      let (d1, t1) := step d g in
      let (d2, t2) := run_games step d1 gs' in
      (d2, t1 ++ t2)
  end.

(** ** Bootstrap synchronizer: body of the loop in [initializeDatabase] *)

(** [for (let i = 0; i < N; i++) { contestNum = L - i; if (contestNum > 0) ... }] *)
Definition boot_nums (L : Z) (N : nat) : list Z :=
  filter (fun k => 0 <? k) (map (fun i => L - Z.of_nat i) (seq 0 N)).

Definition boot_game (N : nat) (fetch : Fetcher) (database : Db) (game : string)
  : Db * list Eff :=
  let tr0 := [EffLog (LogInfo "Buscando historico"); EffFetch game None] in
  match fetch game None with
  | Some latestContest =>
      if numero latestContest =? 0 then
        (database, tr0 ++ [EffLog (LogWarn "Nao foi possivel obter o concurso mais recente")])
      else
        let nums := boot_nums (numero latestContest) N in
        let results := map (fun n => fetch game (Some n)) nums in
        let w := sort_by cmp_asc (filter_some results) in
        (js_set database game w,
         tr0 ++ map (fun n => EffFetch game (Some n)) nums
             ++ [EffLog (LogInfo "concursos armazenados")])
  | None =>
      (database, tr0 ++ [EffLog (LogWarn "Nao foi possivel obter o concurso mais recente")])
  end.

Definition bootstrap_db (N : nat) (fetch : Fetcher) : Db * list Eff :=
  run_games (boot_game N fetch) [] LOTTERY_GAMES.

(** ** Incremental synchronizer: body of the loop in [updateDatabase] *)

Definition update_game (N : nat) (fetch : Fetcher) (database : Db) (game : string)
  : Db * list Eff :=
  let skip := (database, [EffFetch game None;
                          EffLog (LogWarn "Nao foi possivel obter o concurso mais recente")]) in
  match fetch game None with
  | None => skip
  | Some latestContest =>
      if numero latestContest =? 0 then skip else
      let latestApiNumber := numero latestContest in
      let storedContests := get_or_nil database game in
      let latestStoredNumber := max_numero storedContests in
      if latestStoredNumber <? latestApiNumber then
        let nums := range_incl (latestStoredNumber + 1) latestApiNumber in
        let tr := EffFetch game None :: EffLog (LogInfo "Novos concursos encontrados")
                  :: map (fun num => EffFetch game (Some num)) nums in
        let newResults := filter_some (map (fun num => fetch game (Some num)) nums) in
        match newResults with
        | [] => (database, tr)
        | _ :: _ =>
            let updatedContests :=
              sort_by cmp_asc
                (firstn N (sort_by cmp_desc (storedContests ++ newResults))) in
            (js_set database game updatedContests,
             tr ++ [EffLog (LogInfo "atualizado")])
        end
      else (database, [EffFetch game None; EffLog (LogInfo "ja esta atualizado")])
  end.

Definition update_db (N : nat) (fetch : Fetcher) (d : Db) : Db * list Eff :=
  run_games (update_game N fetch) d LOTTERY_GAMES.

(** ** File level and HTTP routes *)

Inductive RespBody :=
| JsonContests (l : list Contest)
| JsonError (message : string).

Record Response := mkResponse { status : Z; body : RespBody }.

Section Store.

(** [JSON.parse] ([None] when it throws) and [JSON.stringify(_, null, 2)]. *)
Variable parse : string -> option Db.
Variable stringify : Db -> string.

(** [initializeDatabase]; [file] is the current content of [db.json]. *)
Definition initializeDatabase (N : nat) (fetch : Fetcher) (file : option string)
  : list Eff :=
  EffLog (LogInfo "Verificando banco de dados")
  :: match file with
     | Some _ => [EffLog (LogInfo "Banco de dados ja existe")]
     | None =>
         let (database, tr) := bootstrap_db N fetch in
         EffLog (LogInfo "db.json nao encontrado") :: tr
         ++ [EffWrite (stringify database); EffLog (LogInfo "Banco de dados inicializado")]
     end.

(** [updateDatabase] *)
Definition updateDatabase (N : nat) (fetch : Fetcher) (file : option string)
  : list Eff :=
  let read_error := [EffLog (LogError "Nao foi possivel ler o db.json para atualizacao")] in
  EffLog (LogInfo "Iniciando atualizacao agendada") :: EffRead
  :: match file with
     | None => read_error
     | Some data =>
         match parse data with
         | None => read_error
         | Some database =>
             let (database', tr) := update_db N fetch database in
             tr ++ [EffWrite (stringify database');
                    EffLog (LogInfo "Atualizacao agendada concluida")]
         end
     end.

(** [app.get('/api/resultados/:gameName', ...)] *)
Definition getGame (file : option string) (gameName : string) : Response * list Eff :=
  if negb (existsb (String.eqb gameName) LOTTERY_GAMES) then
    (mkResponse 404 (JsonError "Jogo nao encontrado."), [])
  else
    let fail := (mkResponse 500 (JsonError "Erro ao ler o banco de dados."), [EffRead]) in
    match file with
    | None => fail
    | Some data =>
        match parse data with
        | None => fail
        | Some database =>
            let gameData := get_or_nil database gameName in
            (mkResponse 200 (JsonContests (sort_by cmp_desc gameData)), [EffRead])
        end
    end.

End Store.

(** ** Properties *)

(** A fetcher that answers the contest it was asked for. *)
Definition consistent (fetch : Fetcher) : Prop :=
  forall g k c, 0 < k -> fetch g (Some k) = Some c -> numero c = k.

(** Storage shape of a window: strictly ascending contest numbers, all
    positive, at most [N] records. *)
Definition wf_window (N : nat) (w : list Contest) : Prop :=
  Sorted (fun a b => numero a < numero b) w /\
  Forall (fun c => 0 < numero c) w /\
  (List.length w <= N)%nat.

(** [w] is the set [M] of candidate records cut down to its [N] highest
    contest numbers, sorted ascending. *)
Definition top_window (N : nat) (M : Contest -> Prop) (w : list Contest) : Prop :=
  Sorted (fun a b => numero a < numero b) w /\
  (forall x, In x w -> M x) /\
  (forall x, M x ->
     In x w \/ (List.length w = N /\ Forall (fun y => numero x < numero y) w)) /\
  (List.length w <= N)%nat.

(** Every window present in a document satisfies [P]. *)
Definition db_all (P : list Contest -> Prop) (d : Db) : Prop :=
  forall k w, js_get d k = Some w -> P w.

(** The upstream requests of a trace that concern one game. *)
Definition game_fetches (g : string) (tr : list Eff) : list (string * option Z) :=
  filter (fun p => String.eqb (fst p) g) (fetches tr).

(** Documents reachable from the bootstrap through incremental ticks, the
    upstream at each step being any fetcher satisfying [P]. *)
Inductive reachable (P : Fetcher -> Prop) : Db -> Prop :=
| reach_boot f : P f -> reachable P (fst (bootstrap_db CONTESTS_TO_STORE f))
| reach_tick f d : P f -> reachable P d ->
    reachable P (fst (update_db CONTESTS_TO_STORE f d)).

(** No game has a newer contest upstream than the stored maximum. *)
Definition no_new (fetch : Fetcher) (d : Db) : Prop :=
  forall g c, In g LOTTERY_GAMES -> fetch g None = Some c ->
    numero c <= max_numero (get_or_nil d g).

(** ** Concrete scenarios (spec section 8) *)

Definition contest (k : Z) : Contest := mkContest k "".

(** Upstream whose latest contest is [latest], every contest [1..latest]
    available except those in [missing]. *)
Definition upstream (latest : Z) (missing : list Z) : Fetcher :=
  fun _ n =>
    match n with
    | None => Some (contest latest)
    | Some k =>
        if (0 <? k) && (k <=? latest) && negb (existsb (Z.eqb k) missing)
        then Some (contest k) else None
    end.

Definition db_B : Db := [("megasena"%string, map contest [6; 7; 8; 9; 10])].

(** ** Proof helpers: the two per-game steps split into their effect on the
    game's own key and their trace. *)

Definition boot_window (N : nat) (fetch : Fetcher) (game : string)
  : option (list Contest) :=
  match fetch game None with
  | Some latestContest =>
      if numero latestContest =? 0 then None
      else Some (sort_by cmp_asc
                   (filter_some (map (fun n => fetch game (Some n))
                                     (boot_nums (numero latestContest) N))))
  | None => None
  end.

Definition boot_trace (N : nat) (fetch : Fetcher) (game : string) : list Eff :=
  let tr0 := [EffLog (LogInfo "Buscando historico"); EffFetch game None] in
  match fetch game None with
  | Some latestContest =>
      if numero latestContest =? 0 then
        tr0 ++ [EffLog (LogWarn "Nao foi possivel obter o concurso mais recente")]
      else tr0 ++ map (fun n => EffFetch game (Some n)) (boot_nums (numero latestContest) N)
               ++ [EffLog (LogInfo "concursos armazenados")]
  | None => tr0 ++ [EffLog (LogWarn "Nao foi possivel obter o concurso mais recente")]
  end.

Definition upd_window (N : nat) (fetch : Fetcher) (game : string)
  (storedContests : list Contest) : option (list Contest) :=
  match fetch game None with
  | None => None
  | Some latestContest =>
      if numero latestContest =? 0 then None else
      let latestStoredNumber := max_numero storedContests in
      if latestStoredNumber <? numero latestContest then
        let nums := range_incl (latestStoredNumber + 1) (numero latestContest) in
        match filter_some (map (fun num => fetch game (Some num)) nums) with
        | [] => None
        | newResults =>
            Some (sort_by cmp_asc
                    (firstn N (sort_by cmp_desc (storedContests ++ newResults))))
        end
      else None
  end.

Definition upd_trace (N : nat) (fetch : Fetcher) (game : string)
  (storedContests : list Contest) : list Eff :=
  let skip := [EffFetch game None;
               EffLog (LogWarn "Nao foi possivel obter o concurso mais recente")] in
  match fetch game None with
  | None => skip
  | Some latestContest =>
      if numero latestContest =? 0 then skip else
      let latestStoredNumber := max_numero storedContests in
      if latestStoredNumber <? numero latestContest then
        let nums := range_incl (latestStoredNumber + 1) (numero latestContest) in
        let tr := EffFetch game None :: EffLog (LogInfo "Novos concursos encontrados")
                  :: map (fun num => EffFetch game (Some num)) nums in
        match filter_some (map (fun num => fetch game (Some num)) nums) with
        | [] => tr
        | _ :: _ => tr ++ [EffLog (LogInfo "atualizado")]
        end
      else [EffFetch game None; EffLog (LogInfo "ja esta atualizado")]
  end.

(** ** [app.get('/api/resultados', ...)] *)

Inductive AllBody :=
| JsonDatabase (database : Db)
| JsonAllError (message : string).

Definition getAll (parse : string -> option Db) (file : option string)
  : (Z * AllBody) * list Eff :=
  let fail := ((500, JsonAllError "Erro ao ler o banco de dados."), [EffRead]) in
  match file with
  | None => fail
  | Some data =>
      match parse data with
      | None => fail
      | Some database => ((200, JsonDatabase database), [EffRead])
      end
  end.

(** ** monitor-loterias.js: [fetchLoteriaData] *)

(** A JSON value as far as the monitor handles it: it only adds string
    fields; the upstream fields are carried as they are. *)
Inductive JValue :=
| JStr (s : string)
| JOpaque (raw : string).

(** A JSON object: own properties in insertion order. *)
Definition JObject := list (string * JValue).

(** [obj[k]] *)
Fixpoint prop_get {V} (o : list (string * V)) (k : string) : option V :=
  match o with
  | [] => None
  | (k', v) :: o' => if String.eqb k k' then Some v else prop_get o' k
  end.

(** [obj[k] = v] (also the last property of an object literal
    [{ ...o, k: v }]): an existing property keeps its place, a new one is
    appended. *)
Fixpoint prop_set {V} (o : list (string * V)) (k : string) (v : V) : list (string * V) :=
  match o with
  | [] => [(k, v)]
  | (k', v') :: o' =>
      if String.eqb k k' then (k', v) :: o' else (k', v') :: prop_set o' k v
  end.

Definition loterias : list (string * string) :=
  [("megasena", "https://servicebus2.caixa.gov.br/portaldeloterias/api/megasena");
   ("lotofacil", "https://servicebus2.caixa.gov.br/portaldeloterias/api/lotofacil");
   ("quina", "https://servicebus2.caixa.gov.br/portaldeloterias/api/quina");
   ("lotomania", "https://servicebus2.caixa.gov.br/portaldeloterias/api/lotomania");
   ("timemania", "https://servicebus2.caixa.gov.br/portaldeloterias/api/timemania");
   ("duplasena", "https://servicebus2.caixa.gov.br/portaldeloterias/api/duplasena");
   ("diadesorte", "https://servicebus2.caixa.gov.br/portaldeloterias/api/diadesorte");
   ("supersete", "https://servicebus2.caixa.gov.br/portaldeloterias/api/supersete");
   ("maismilionaria", "https://servicebus2.caixa.gov.br/portaldeloterias/api/maismilionaria")]%string.

(** What [axios.get(url)] settles to: the response data (a JSON object), or
    a rejection (network failure or non-2xx status) with its message. *)
Inductive AxiosResult :=
| AxiosOk (data : JObject)
| AxiosErr (message : string).

Inductive MonEff :=
| MonLog (l : Log)
| MonWriteFile (path : string) (text : string).   (* fs.writeFileSync *)

(** One iteration of the [for (const loteria of loterias)] loop. *)
Definition monitor_step (axios : string -> AxiosResult) (timestamp : string)
  (resultados : list (string * JObject)) (loteria : string * string)
  : list (string * JObject) * list MonEff :=
  let (nome, url) := loteria in
  match axios url with
  | AxiosOk data =>
      (prop_set resultados nome (prop_set data "ultimaAtualizacao" (JStr timestamp)),
       [MonLog (LogInfo "Dados capturados com sucesso")])
  | AxiosErr message =>
      (prop_set resultados nome
         [("erro"%string, JStr message); ("ultimaAtualizacao"%string, JStr timestamp)],
       [MonLog (LogError "Erro ao buscar dados")])
  end.

Fixpoint monitor_loop (axios : string -> AxiosResult) (timestamp : string)
  (resultados : list (string * JObject)) (ls : list (string * string))
  : list (string * JObject) * list MonEff :=
  match ls with
  | [] => (resultados, [])
  | l :: ls' =>
      let (r1, t1) := monitor_step axios timestamp resultados l in
      let (r2, t2) := monitor_loop axios timestamp r1 ls' in
      (r2, t1 ++ t2)
  end.

(** [fetchLoteriaData]; [timestamp] is [new Date().toISOString()] and
    [stringify_results] is [JSON.stringify(_, null, 2)]. Returns the object
    written and the trace. *)
Definition fetchLoteriaData (stringify_results : list (string * JObject) -> string)
  (axios : string -> AxiosResult) (timestamp : string)
  : list (string * JObject) * list MonEff :=
  let (resultados, tr) := monitor_loop axios timestamp [] loterias in
  (resultados,
   tr ++ [MonWriteFile "loterias.json" (stringify_results resultados);
          MonLog (LogInfo "Arquivo loterias.json atualizado")]).

(** Whether a game's latest-contest request gives a usable contest, i.e.
    whether the bootstrap stores the game. *)
Definition latest_usable (fetch : Fetcher) (g : string) : bool :=
  match fetch g None with Some c => negb (numero c =? 0) | None => false end.

(** The entry [fetchLoteriaData] stores for a lottery fetched at [url]. *)
Definition monitor_entry (axios : string -> AxiosResult) (timestamp url : string) : JObject :=
  match axios url with
  | AxiosOk data => prop_set data "ultimaAtualizacao" (JStr timestamp)
  | AxiosErr message =>
      [("erro"%string, JStr message); ("ultimaAtualizacao"%string, JStr timestamp)]
  end.

(** The file writes of a monitor trace. *)
Definition mon_writes (tr : list MonEff) : list (string * string) :=
  flat_map (fun e => match e with MonWriteFile p t => [(p, t)] | _ => [] end) tr.

(** The trim of [updateDatabase]: sort descending, keep [N], sort
    ascending. *)
Definition trim (N : nat) (m : list Contest) : list Contest :=
  sort_by cmp_asc (firstn N (sort_by cmp_desc m)).

(** The records a tick may merge into a game's window: the stored ones
    and those available upstream above the stored maximum. *)
Definition candidates (fetch : Fetcher) (g : string) (stored : list Contest)
  (latest : Z) (x : Contest) : Prop :=
  In x stored \/
  exists k, max_numero stored < k <= latest /\ fetch g (Some k) = Some x.

(** * Lemmas *)

(** ** Sorting *)

Section Sorting.
Variable cmp : Contest -> Contest -> Z.
Variable key : Contest -> Z.
Hypothesis cmp_key : forall a b, (cmp a b <=? 0) = (key a <=? key b).

Lemma insert_by_perm x l : Permutation (insert_by cmp x l) (x :: l).
Proof.
  induction l as [|y l IH]; simpl; [reflexivity|].
  destruct (cmp x y <=? 0); [reflexivity|].
  rewrite IH. apply perm_swap.
Qed.

Lemma sort_by_perm l : Permutation (sort_by cmp l) l.
Proof.
  induction l as [|x l IH]; simpl; [reflexivity|].
  rewrite insert_by_perm. now apply perm_skip.
Qed.

Lemma insert_by_hd a x l :
  HdRel (fun a b => key a <= key b) a l -> (fun a b => key a <= key b) a x -> HdRel (fun a b => key a <= key b) a (insert_by cmp x l).
Proof.
  intros H Hax. destruct l as [|y l]; simpl; [now constructor|].
  destruct (cmp x y <=? 0); constructor; [assumption|].
  now inversion H.
Qed.

Lemma insert_by_sorted x l : Sorted (fun a b => key a <= key b) l -> Sorted (fun a b => key a <= key b) (insert_by cmp x l).
Proof.
  induction l as [|y l IH]; intros Hs; simpl; [now repeat constructor|].
  case_eq (cmp x y <=? 0); intros Hc.
  - rewrite cmp_key in Hc. apply Z.leb_le in Hc.
    constructor; [assumption|]. constructor. exact Hc.
  - rewrite cmp_key in Hc. apply Z.leb_gt in Hc.
    inversion Hs; subst. constructor; [now apply IH|].
    apply insert_by_hd; [assumption|]. simpl. lia.
Qed.

Lemma sort_by_sorted l : Sorted (fun a b => key a <= key b) (sort_by cmp l).
Proof.
  induction l as [|x l IH]; simpl; [constructor|].
  now apply insert_by_sorted.
Qed.

End Sorting.

Lemma Sorted_weaken {A} (R R' : A -> A -> Prop) l :
  (forall a b, R a b -> R' a b) -> Sorted R l -> Sorted R' l.
Proof.
  intros HR Hs. induction Hs as [|a l Hs IH Hd]; constructor; [assumption|].
  destruct Hd; constructor. now apply HR.
Qed.

Lemma cmp_asc_key a b : (cmp_asc a b <=? 0) = (numero a <=? numero b).
Proof.
  unfold cmp_asc. destruct (Z.leb_spec (numero a - numero b) 0);
    destruct (Z.leb_spec (numero a) (numero b)); lia.
Qed.

Lemma cmp_desc_key a b :
  (cmp_desc a b <=? 0) = ((fun c => - numero c) a <=? (fun c => - numero c) b).
Proof.
  unfold cmp_desc. destruct (Z.leb_spec (numero b - numero a) 0);
    destruct (Z.leb_spec (- numero a) (- numero b)); lia.
Qed.

Lemma sort_asc_sorted l :
  Sorted (fun a b => numero a <= numero b) (sort_by cmp_asc l).
Proof. exact (sort_by_sorted cmp_asc numero cmp_asc_key l). Qed.

Lemma sort_desc_strongly_sorted l :
  StronglySorted (fun a b => numero b <= numero a) (sort_by cmp_desc l).
Proof.
  pose proof (sort_by_sorted cmp_desc (fun c => - numero c) cmp_desc_key l) as H.
  apply Sorted_StronglySorted.
  - intros x y z; lia.
  - eapply Sorted_weaken; [|exact H]. simpl; intros; lia.
Qed.

Lemma StronglySorted_app_rel {A} (R : A -> A -> Prop) l1 l2 a b :
  StronglySorted R (l1 ++ l2) -> In a l1 -> In b l2 -> R a b.
Proof.
  induction l1 as [|x l1 IH]; simpl; [contradiction|].
  intros Hs [<-|Ha] Hb; apply StronglySorted_inv in Hs as [Hs Hx].
  - rewrite Forall_forall in Hx. apply Hx, in_or_app. now right.
  - now apply IH.
Qed.

Lemma NoDup_map_eq {A B} (f : A -> B) l x y :
  NoDup (map f l) -> In x l -> In y l -> f x = f y -> x = y.
Proof.
  induction l as [|a l IH]; simpl; [contradiction|].
  intros Hn Hx Hy Hf. inversion Hn as [|? ? Hna Hnl]; subst.
  destruct Hx as [<-|Hx], Hy as [<-|Hy]; auto.
  - exfalso. apply Hna. rewrite Hf. now apply in_map.
  - exfalso. apply Hna. rewrite <- Hf. now apply in_map.
Qed.

Lemma sorted_le_strict l :
  Sorted (fun a b => numero a <= numero b) l -> NoDup (map numero l) ->
  Sorted (fun a b => numero a < numero b) l.
Proof.
  induction l as [|a l IH]; intros Hs Hn; [constructor|].
  apply Sorted_inv in Hs as [Hs Hd]. inversion Hn as [|? ? Hna Hnl]; subst.
  constructor; [now apply IH|].
  destruct l as [|b l]; constructor. apply HdRel_inv in Hd.
  assert (numero a <> numero b) by (intros E; apply Hna; simpl; now left).
  lia.
Qed.

Lemma in_firstn_in {A} n (l : list A) x : In x (firstn n l) -> In x l.
Proof.
  intros H. rewrite <- (firstn_skipn n l). apply in_or_app. now left.
Qed.

Lemma NoDup_map_firstn {A B} (f : A -> B) n l :
  NoDup (map f l) -> NoDup (map f (firstn n l)).
Proof.
  rewrite <- (firstn_skipn n l) at 1. rewrite map_app.
  apply NoDup_app_remove_r.
Qed.

Lemma in_filter_some {A B} (f : A -> option B) l x :
  In x (filter_some (map f l)) <-> exists k, In k l /\ f k = Some x.
Proof.
  induction l as [|a l IH]; simpl.
  - split; [contradiction|]. intros (k & [] & _).
  - destruct (f a) as [b|] eqn:Hfa; simpl; rewrite IH; split.
    + intros [<-|(k & Hk & Hfk)]; [exists a; auto|]. exists k; auto.
    + intros (k & [<-|Hk] & Hfk); [left; congruence|]. right; now exists k.
    + intros (k & Hk & Hfk). exists k; auto.
    + intros (k & [<-|Hk] & Hfk); [congruence|]. now exists k.
Qed.

Lemma filter_some_length {A} (l : list (option A)) :
  (List.length (filter_some l) <= List.length l)%nat.
Proof. induction l as [|[a|] l IH]; simpl; lia. Qed.

Lemma filter_some_perm {A} (l l' : list (option A)) :
  Permutation l l' -> Permutation (filter_some l) (filter_some l').
Proof.
  induction 1 as [|[a|] l l' _ IH|[a|] [b|] l|l l' l'' _ IH1 _ IH2]; simpl.
  all: try solve [constructor; auto | apply perm_swap | reflexivity | assumption].
  now transitivity (filter_some l').
Qed.

(** Under a consistent fetcher, the records fetched for positive numbers
    carry exactly the numbers that were available. *)
Lemma filter_some_consistent fetch g nums :
  consistent fetch -> Forall (fun k => 0 < k) nums ->
  map numero (filter_some (map (fun k => fetch g (Some k)) nums))
  = filter (fun k => match fetch g (Some k) with Some _ => true | None => false end) nums.
Proof.
  intros Hc. induction nums as [|k nums IH]; intros Hp; simpl; [reflexivity|].
  inversion Hp; subst.
  destruct (fetch g (Some k)) as [c|] eqn:Hf; simpl; rewrite IH by assumption;
    [|reflexivity].
  f_equal. eapply Hc; eassumption.
Qed.

Lemma in_range_incl lo hi k : In k (range_incl lo hi) <-> lo <= k <= hi.
Proof.
  unfold range_incl. rewrite in_map_iff. split.
  - intros (i & <- & Hi). apply in_seq in Hi. lia.
  - intros H. exists (Z.to_nat (k - lo)). split; [lia|].
    apply in_seq. lia.
Qed.

Lemma range_incl_NoDup lo hi : NoDup (range_incl lo hi).
Proof.
  unfold range_incl. apply Injective_map_NoDup; [|apply seq_NoDup].
  intros i j E. lia.
Qed.

Lemma in_boot_nums L N k : In k (boot_nums L N) <-> 0 < k /\ L - Z.of_nat N < k <= L.
Proof.
  unfold boot_nums. rewrite filter_In, in_map_iff, Z.ltb_lt. split.
  - intros [(i & <- & Hi) Hk]. apply in_seq in Hi. lia.
  - intros (Hk & Hr). split; [|lia]. exists (Z.to_nat (L - k)).
    split; [lia|]. apply in_seq. lia.
Qed.

Lemma boot_nums_NoDup L N : NoDup (boot_nums L N).
Proof.
  unfold boot_nums. apply NoDup_filter. apply Injective_map_NoDup; [|apply seq_NoDup].
  intros i j E. lia.
Qed.

Lemma boot_nums_length L N : (List.length (boot_nums L N) <= N)%nat.
Proof.
  unfold boot_nums. etransitivity; [apply filter_length_le|].
  now rewrite length_map, length_seq.
Qed.

Lemma max_numero_ge l c : In c l -> numero c <= max_numero l.
Proof.
  intros Hin. destruct l as [|a l]; [contradiction|]. simpl.
  assert (Hacc : forall l m, m <= fold_left (fun m x => Z.max m (numero x)) l m /\
            forall c, In c l -> numero c <= fold_left (fun m x => Z.max m (numero x)) l m).
  { clear. induction l as [|b l IH]; intros m; simpl; [split; [lia|contradiction]|].
    destruct (IH (Z.max m (numero b))) as [H1 H2]. split; [lia|].
    intros c [<-|Hc]; [lia|auto]. }
  destruct Hin as [<-|Hc]; [apply (proj1 (Hacc l _))|]. now apply (proj2 (Hacc l _)).
Qed.

Lemma max_numero_nonneg l : Forall (fun c => 0 < numero c) l -> 0 <= max_numero l.
Proof.
  intros H. destruct l as [|a l]; [simpl; lia|].
  pose proof (max_numero_ge (a :: l) a (or_introl eq_refl)).
  inversion H; subst. lia.
Qed.

(** ** The store document as a JS object *)

Lemma js_get_set o k v k' :
  js_get (js_set o k v) k' = if String.eqb k' k then Some v else js_get o k'.
Proof.
  induction o as [|[k1 v1] o IH]; simpl.
  - reflexivity.
  - destruct (String.eqb_spec k k1) as [->|Hne]; simpl.
    + destruct (String.eqb k' k1); reflexivity.
    + rewrite IH. destruct (String.eqb_spec k' k1) as [->|]; [|reflexivity].
      destruct (String.eqb_spec k1 k); [congruence|reflexivity].
Qed.

Lemma db_all_set P d k w : db_all P d -> P w -> db_all P (js_set d k w).
Proof.
  intros Hd Hw k' w'. rewrite js_get_set.
  destruct (String.eqb k' k); [congruence|apply Hd].
Qed.

Lemma db_all_get P d k : db_all P d -> P [] -> P (get_or_nil d k).
Proof.
  unfold get_or_nil. intros Hd H0. destruct (js_get d k) eqn:E; [|assumption].
  eapply Hd; eassumption.
Qed.

Lemma existsb_eqb_in g gs : existsb (String.eqb g) gs = true <-> In g gs.
Proof.
  rewrite existsb_exists. split.
  - intros (x & Hx & E). apply String.eqb_eq in E. now subst.
  - intros H. exists g. split; [assumption|]. apply String.eqb_refl.
Qed.

(** ** The per-game loop *)

Section Loop.
Variable step : Db -> string -> Db * list Eff.
Variable upd : string -> list Contest -> option (list Contest).
Variable trf : string -> list Contest -> list Eff.
Hypothesis step_split : forall d g,
  step d g = (match upd g (get_or_nil d g) with
              | Some w => js_set d g w
              | None => d
              end, trf g (get_or_nil d g)).
Hypothesis trf_own : forall g w g' n, In (g', n) (fetches (trf g w)) -> g' = g.

Lemma get_or_nil_set_other d k w g :
  String.eqb g k = false -> get_or_nil (js_set d k w) g = get_or_nil d g.
Proof. intros H. unfold get_or_nil. now rewrite js_get_set, H. Qed.

Lemma run_games_get gs : forall d g, NoDup gs ->
  js_get (fst (run_games step d gs)) g =
  if existsb (String.eqb g) gs then
    match upd g (get_or_nil d g) with Some w => Some w | None => js_get d g end
  else js_get d g.
Proof.
  induction gs as [|a gs IH]; intros d g Hnd; simpl; [reflexivity|].
  inversion Hnd as [|? ? Ha Hgs]; subst.
  rewrite step_split.
  destruct (run_games step _ gs) as [d2 t2] eqn:Er. simpl.
  replace d2 with (fst (run_games step (match upd a (get_or_nil d a) with
                                        | Some w => js_set d a w | None => d end) gs))
    by now rewrite Er.
  rewrite IH by assumption.
  destruct (String.eqb_spec g a) as [->|Hne]; simpl.
  - assert (Hx : existsb (String.eqb a) gs = false).
    { destruct (existsb (String.eqb a) gs) eqn:E; [|reflexivity].
      apply existsb_eqb_in in E. contradiction. }
    rewrite Hx. destruct (upd a (get_or_nil d a)); [|reflexivity].
    rewrite js_get_set, String.eqb_refl. reflexivity.
  - apply String.eqb_neq in Hne.
    destruct (upd a (get_or_nil d a)) as [w|];
      [|destruct (existsb (String.eqb g) gs); reflexivity].
    rewrite get_or_nil_set_other by assumption.
    rewrite js_get_set, Hne. reflexivity.
Qed.

Lemma game_fetches_app g t1 t2 :
  game_fetches g (t1 ++ t2) = game_fetches g t1 ++ game_fetches g t2.
Proof. unfold game_fetches, fetches. now rewrite flat_map_app, filter_app. Qed.

Lemma game_fetches_own g w : game_fetches g (trf g w) = fetches (trf g w).
Proof.
  unfold game_fetches. apply forallb_filter_id, forallb_forall.
  intros [g' n] Hin. apply String.eqb_eq. simpl. eapply trf_own. exact Hin.
Qed.

Lemma game_fetches_other g g' w :
  g <> g' -> game_fetches g (trf g' w) = [].
Proof.
  intros Hne. unfold game_fetches.
  destruct (filter _ _) as [|[g'' n] l] eqn:E; [reflexivity|].
  assert (Hin : In (g'', n) (filter (fun p => String.eqb (fst p) g) (fetches (trf g' w))))
    by (rewrite E; now left).
  apply filter_In in Hin as [Hin Heq]. simpl in Heq. apply String.eqb_eq in Heq.
  apply trf_own in Hin. congruence.
Qed.

Lemma run_games_fetches gs : forall d g, NoDup gs ->
  game_fetches g (snd (run_games step d gs)) =
  if existsb (String.eqb g) gs then fetches (trf g (get_or_nil d g)) else [].
Proof.
  induction gs as [|a gs IH]; intros d g Hnd; simpl; [reflexivity|].
  inversion Hnd as [|? ? Ha Hgs]; subst.
  rewrite step_split.
  destruct (run_games step _ gs) as [d2 t2] eqn:Er. simpl.
  replace t2 with (snd (run_games step (match upd a (get_or_nil d a) with
                                        | Some w => js_set d a w | None => d end) gs))
    by now rewrite Er.
  rewrite game_fetches_app, IH by assumption.
  destruct (String.eqb_spec g a) as [->|Hne]; simpl.
  - assert (Hx : existsb (String.eqb a) gs = false).
    { destruct (existsb (String.eqb a) gs) eqn:E; [|reflexivity].
      apply existsb_eqb_in in E. contradiction. }
    rewrite Hx, game_fetches_own, app_nil_r. reflexivity.
  - rewrite game_fetches_other by assumption. simpl.
    apply String.eqb_neq in Hne.
    destruct (upd a (get_or_nil d a)) as [w|]; [|reflexivity].
    rewrite get_or_nil_set_other by assumption. reflexivity.
Qed.

Lemma run_games_db_all (P : list Contest -> Prop) gs : forall d,
  P [] ->
  (forall g w w', P w -> upd g w = Some w' -> P w') ->
  db_all P d -> db_all P (fst (run_games step d gs)).
Proof.
  induction gs as [|a gs IH]; intros d H0 Hupd Hd; simpl; [assumption|].
  rewrite step_split.
  destruct (run_games step _ gs) as [d2 t2] eqn:Er. simpl.
  replace d2 with (fst (run_games step (match upd a (get_or_nil d a) with
                                        | Some w => js_set d a w | None => d end) gs))
    by now rewrite Er.
  apply IH; [assumption|assumption|].
  destruct (upd a (get_or_nil d a)) as [w|] eqn:Eu; [|assumption].
  apply db_all_set; [assumption|]. eapply Hupd; [|exact Eu].
  now apply db_all_get.
Qed.

Lemma run_games_unchanged gs : forall d,
  (forall g, In g gs -> upd g (get_or_nil d g) = None) ->
  fst (run_games step d gs) = d.
Proof.
  induction gs as [|a gs IH]; intros d Hn; simpl; [reflexivity|].
  rewrite step_split, Hn by (now left).
  destruct (run_games step d gs) as [d2 t2] eqn:Er. simpl.
  replace d2 with (fst (run_games step d gs)) by now rewrite Er.
  apply IH. intros g Hg. apply Hn. now right.
Qed.

End Loop.

Lemma update_game_split N fetch d g :
  update_game N fetch d g =
  (match upd_window N fetch g (get_or_nil d g) with
   | Some w => js_set d g w | None => d end,
   upd_trace N fetch g (get_or_nil d g)).
Proof.
  unfold update_game, upd_window, upd_trace.
  destruct (fetch g None) as [c|]; [|reflexivity].
  destruct (numero c =? 0); [reflexivity|].
  destruct (max_numero (get_or_nil d g) <? numero c); [|reflexivity].
  destruct (filter_some _); reflexivity.
Qed.

Lemma upd_trace_own N fetch g w g' n :
  In (g', n) (fetches (upd_trace N fetch g w)) -> g' = g.
Proof.
  unfold upd_trace, fetches.
  destruct (fetch g None) as [c|]; [|simpl; intuition congruence].
  destruct (numero c =? 0); [simpl; intuition congruence|].
  destruct (max_numero w <? numero c); [|simpl; intuition congruence].
  intros H. apply in_flat_map in H as (e & He & Hin).
  destruct (filter_some _); [|apply in_app_or in He as [He|He]];
    try (destruct He as [<-|He]; [simpl in Hin; intuition congruence|]);
    try (destruct He as [<-|He]; [simpl in Hin; intuition congruence|]);
    try (apply in_map_iff in He as (num & <- & _); simpl in Hin; intuition congruence);
    simpl in He; intuition (subst; simpl in *; intuition congruence).
Qed.

Lemma boot_game_split N fetch d g :
  boot_game N fetch d g =
  (match (fun g (_ : list Contest) => boot_window N fetch g) g (get_or_nil d g) with
   | Some w => js_set d g w | None => d end,
   (fun g (_ : list Contest) => boot_trace N fetch g) g (get_or_nil d g)).
Proof.
  unfold boot_game, boot_window, boot_trace.
  destruct (fetch g None) as [c|]; [|reflexivity].
  destruct (numero c =? 0); reflexivity.
Qed.

Lemma LOTTERY_GAMES_NoDup : NoDup LOTTERY_GAMES.
Proof. unfold LOTTERY_GAMES. repeat constructor; simpl; intuition discriminate. Qed.

(** ** The trim *)

(** A record left out by the trim is beaten by all [N] kept ones. *)
Lemma trim_dropped N m x :
  In x (sort_by cmp_desc m) -> ~ In (numero x) (map numero (firstn N (sort_by cmp_desc m))) ->
  List.length (trim N m) = N /\ Forall (fun y => numero x < numero y) (trim N m).
Proof.
  set (s := sort_by cmp_desc m). intros Hx Hnk.
  assert (Hxs : In x (skipn N s)).
  { rewrite <- (firstn_skipn N s) in Hx. apply in_app_or in Hx as [Hx|Hx]; [|assumption].
    exfalso. apply Hnk. now apply in_map. }
  assert (Hp : Permutation (trim N m) (firstn N s)) by apply sort_by_perm.
  split.
  - rewrite (Permutation_length Hp), length_firstn.
    assert (List.length (skipn N s) <> 0%nat) by (destruct (skipn N s); simpl in *; [contradiction|lia]).
    rewrite length_skipn in *. lia.
  - apply Forall_forall. intros y Hy.
    apply (Permutation_in _ Hp) in Hy.
    pose proof (StronglySorted_app_rel (fun a b => numero b <= numero a)
                  (firstn N s) (skipn N s) y x) as Hle.
    rewrite firstn_skipn in Hle.
    specialize (Hle (sort_desc_strongly_sorted m) Hy Hxs).
    assert (numero y <> numero x) by (intros E; apply Hnk; rewrite <- E; now apply in_map).
    lia.
Qed.

Lemma trim_keeps N m k :
  In k (map numero m) ->
  In k (map numero (trim N m)) \/
  (List.length (trim N m) = N /\ Forall (fun y => k < numero y) (trim N m)).
Proof.
  intros Hk. set (s := sort_by cmp_desc m).
  assert (Hp : Permutation (trim N m) (firstn N s)) by apply sort_by_perm.
  destruct (in_dec Z.eq_dec k (map numero (firstn N s))) as [Hin|Hnin].
  - left. eapply Permutation_in; [|exact Hin].
    apply Permutation_map. now symmetry.
  - right. apply in_map_iff in Hk as (x & <- & Hx).
    apply trim_dropped; [|assumption].
    eapply Permutation_in; [|exact Hx]. symmetry. apply sort_by_perm.
Qed.

Lemma strict_sorted_NoDup l :
  Sorted (fun a b => numero a < numero b) l -> NoDup (map numero l).
Proof.
  intros Hs. apply Sorted_StronglySorted in Hs; [|intros x y z; lia].
  induction Hs as [|a l Hs IH Hf]; simpl; constructor; [|assumption].
  rewrite in_map_iff. intros (y & Ey & Hy).
  rewrite Forall_forall in Hf. specialize (Hf y Hy). lia.
Qed.

Lemma top_window_ext N (M M' : Contest -> Prop) w :
  (forall x, M x <-> M' x) -> top_window N M w -> top_window N M' w.
Proof.
  intros HM (H1 & H2 & H3 & H4). repeat split; auto.
  - intros x Hx. apply HM. auto.
  - intros x Hx. apply H3, HM, Hx.
Qed.

Lemma trim_top N m :
  NoDup (map numero m) -> top_window N (fun x => In x m) (trim N m).
Proof.
  intros Hnd. set (s := sort_by cmp_desc m).
  assert (Hps : Permutation s m) by apply sort_by_perm.
  assert (Hp : Permutation (trim N m) (firstn N s)) by apply sort_by_perm.
  assert (Hnds : NoDup (map numero s))
    by (eapply Permutation_NoDup; [apply Permutation_map; symmetry; exact Hps|exact Hnd]).
  repeat split.
  - apply sorted_le_strict; [apply sort_asc_sorted|].
    eapply Permutation_NoDup; [apply Permutation_map; symmetry; exact Hp|].
    now apply NoDup_map_firstn.
  - intros x Hx. apply (Permutation_in _ Hps). apply in_firstn_in with N.
    exact (Permutation_in _ Hp Hx).
  - intros x Hx. apply (Permutation_in _ (Permutation_sym Hps)) in Hx.
    destruct (in_dec Z.eq_dec (numero x) (map numero (firstn N s))) as [Hin|Hnin].
    + left. apply in_map_iff in Hin as (y & Ey & Hy).
      assert (x = y).
      { apply (NoDup_map_eq numero s); auto. now apply in_firstn_in with N. }
      subst y. apply (Permutation_in _ (Permutation_sym Hp)). exact Hy.
    + right. now apply trim_dropped.
  - rewrite (Permutation_length Hp). apply firstn_le_length.
Qed.

(** ** One game of an incremental tick *)

Section UpdateGame.
Variables (N : nat) (fetch : Fetcher) (g : string) (stored : list Contest).
Hypothesis Hcons : consistent fetch.
Hypothesis Hwf : wf_window N stored.

Lemma upd_window_top c :
  fetch g None = Some c -> max_numero stored < numero c ->
  top_window N (candidates fetch g stored (numero c))
    (match upd_window N fetch g stored with Some w => w | None => stored end).
Proof.
  intros Hc Hlt. destruct Hwf as (Hsorted & Hpos & Hlen).
  pose proof (max_numero_nonneg _ Hpos) as Hnn.
  unfold upd_window. rewrite Hc.
  replace (numero c =? 0) with false by (symmetry; apply Z.eqb_neq; lia).
  replace (max_numero stored <? numero c) with true by (symmetry; apply Z.ltb_lt; lia).
  set (nums := range_incl (max_numero stored + 1) (numero c)).
  assert (Hnew : forall x, In x (filter_some (map (fun num => fetch g (Some num)) nums)) <->
            exists k, max_numero stored < k <= numero c /\ fetch g (Some k) = Some x).
  { intros x. rewrite in_filter_some. unfold nums.
    split; intros (k & Hk & Hf); exists k; rewrite in_range_incl in *; split; auto; lia. }
  destruct (filter_some _) as [|r rs] eqn:Ef.
  - repeat split; auto.
    + intros x Hx. now left.
    + intros x [Hx|Hx]; [now left|]. apply Hnew in Hx. contradiction.
  - apply top_window_ext with (M := fun x => In x (stored ++ r :: rs)).
    { intros x. rewrite in_app_iff, Hnew. reflexivity. }
    apply trim_top. rewrite map_app. apply NoDup_app.
    + now apply strict_sorted_NoDup.
    + rewrite <- Ef, filter_some_consistent by
        (auto; apply Forall_forall; intros k Hk; unfold nums in Hk;
         rewrite in_range_incl in Hk; lia).
      apply NoDup_filter, range_incl_NoDup.
    + intros a Ha Hb. apply in_map_iff in Ha as (x & <- & Hx).
      apply max_numero_ge in Hx.
      rewrite <- Ef, filter_some_consistent in Hb by
        (auto; apply Forall_forall; intros k Hk; unfold nums in Hk;
         rewrite in_range_incl in Hk; lia).
      apply filter_In in Hb as [Hb _]. unfold nums in Hb.
      rewrite in_range_incl in Hb. lia.
Qed.

Lemma candidates_pos latest x : candidates fetch g stored latest x -> 0 < numero x.
Proof.
  destruct Hwf as (_ & Hpos & _). pose proof (max_numero_nonneg _ Hpos).
  intros [Hx|(k & Hk & Hf)].
  - rewrite Forall_forall in Hpos. auto.
  - rewrite (Hcons g k x) by (auto; lia). lia.
Qed.

Lemma upd_window_wf w : upd_window N fetch g stored = Some w -> wf_window N w.
Proof.
  intros Hu.
  destruct (fetch g None) as [c|] eqn:Hc;
    [|unfold upd_window in Hu; rewrite Hc in Hu; discriminate].
  assert (Hlt : max_numero stored < numero c).
  { unfold upd_window in Hu. rewrite Hc in Hu.
    destruct (numero c =? 0); [discriminate|].
    destruct (Z.ltb_spec (max_numero stored) (numero c)); [assumption|discriminate]. }
  pose proof (upd_window_top c Hc Hlt) as Ht. rewrite Hu in Ht.
  destruct Ht as (H1 & H2 & _ & H4). repeat split; auto.
  apply Forall_forall. intros x Hx. eapply candidates_pos. now apply H2.
Qed.

End UpdateGame.

Lemma upd_window_some N fetch g stored w :
  upd_window N fetch g stored = Some w ->
  exists c extra, fetch g None = Some c /\ max_numero stored < numero c /\
    w = trim N (stored ++ extra).
Proof.
  unfold upd_window. destruct (fetch g None) as [c|]; [|discriminate].
  destruct (numero c =? 0); [discriminate|].
  destruct (Z.ltb_spec (max_numero stored) (numero c)); [|discriminate].
  destruct (filter_some _) as [|r rs]; [discriminate|].
  intros E. injection E as <-. exists c, (r :: rs). auto.
Qed.

Lemma upd_window_new N fetch g stored w x :
  consistent fetch -> wf_window N stored ->
  upd_window N fetch g stored = Some w -> In x w -> ~ In x stored ->
  max_numero stored < numero x.
Proof.
  intros Hc Hwf Hu Hx Hn.
  destruct (upd_window_some _ _ _ _ _ Hu) as (c & extra & Hf & Hlt & _).
  pose proof (upd_window_top N fetch g stored Hc Hwf c Hf Hlt) as (_ & Hin & _).
  rewrite Hu in Hin. destruct (Hin x Hx) as [Hs|(k & Hk & Hfk)]; [contradiction|].
  rewrite (Hc g k x) by (auto; destruct Hwf as (_ & Hp & _);
                          pose proof (max_numero_nonneg _ Hp); lia).
  lia.
Qed.

Lemma trim_length N m : (List.length (trim N m) <= N)%nat.
Proof.
  unfold trim. rewrite (Permutation_length (sort_by_perm _ _)).
  apply firstn_le_length.
Qed.

Lemma boot_window_wf N fetch g w :
  consistent fetch -> boot_window N fetch g = Some w -> wf_window N w.
Proof.
  intros Hc. unfold boot_window.
  destruct (fetch g None) as [c|]; [|discriminate].
  destruct (numero c =? 0); [discriminate|].
  intros E. injection E as <-.
  set (nums := boot_nums (numero c) N).
  assert (Hpos : Forall (fun k => 0 < k) nums).
  { apply Forall_forall. intros k Hk. apply in_boot_nums in Hk. lia. }
  assert (Hp : Permutation (sort_by cmp_asc (filter_some (map (fun n => fetch g (Some n)) nums)))
                 (filter_some (map (fun n => fetch g (Some n)) nums))) by apply sort_by_perm.
  repeat split.
  - apply sorted_le_strict; [apply sort_asc_sorted|].
    eapply Permutation_NoDup; [apply Permutation_map; symmetry; exact Hp|].
    rewrite filter_some_consistent by assumption.
    apply NoDup_filter, boot_nums_NoDup.
  - apply Forall_forall. intros x Hx. apply (Permutation_in _ Hp) in Hx.
    apply in_filter_some in Hx as (k & Hk & Hf).
    rewrite (Hc g k x) by (auto; apply in_boot_nums in Hk; lia).
    apply in_boot_nums in Hk. lia.
  - rewrite (Permutation_length Hp). etransitivity; [apply filter_some_length|].
    rewrite length_map. apply boot_nums_length.
Qed.

Lemma db_all_nil P : db_all P [].
Proof. intros k w H. discriminate. Qed.

Lemma reachable_wf d : reachable consistent d -> db_all (wf_window CONTESTS_TO_STORE) d.
Proof.
  induction 1 as [f Hf|f d Hf _ IH].
  - apply (run_games_db_all (boot_game CONTESTS_TO_STORE f)
             (fun g _ => boot_window CONTESTS_TO_STORE f g)
             (fun g _ => boot_trace CONTESTS_TO_STORE f g)
             (boot_game_split CONTESTS_TO_STORE f)).
    + split; [constructor|split; [constructor|simpl; lia]].
    + intros g w w' _ Hb. eapply boot_window_wf; eassumption.
    + apply db_all_nil.
  - apply (run_games_db_all (update_game CONTESTS_TO_STORE f)
             (upd_window CONTESTS_TO_STORE f) (upd_trace CONTESTS_TO_STORE f)
             (update_game_split CONTESTS_TO_STORE f)).
    + split; [constructor|split; [constructor|simpl; lia]].
    + intros g w w' Hw Hu. eapply upd_window_wf; eassumption.
    + exact IH.
Qed.

Lemma update_db_get N fetch d g :
  In g LOTTERY_GAMES ->
  js_get (fst (update_db N fetch d)) g =
  match upd_window N fetch g (get_or_nil d g) with
  | Some w => Some w | None => js_get d g end.
Proof.
  intros Hg. unfold update_db.
  rewrite (run_games_get _ _ _ (update_game_split N fetch)) by apply LOTTERY_GAMES_NoDup.
  apply existsb_eqb_in in Hg. now rewrite Hg.
Qed.

Lemma update_db_get_other N fetch d g :
  ~ In g LOTTERY_GAMES -> js_get (fst (update_db N fetch d)) g = js_get d g.
Proof.
  intros Hg. unfold update_db.
  rewrite (run_games_get _ _ _ (update_game_split N fetch)) by apply LOTTERY_GAMES_NoDup.
  destruct (existsb (String.eqb g) LOTTERY_GAMES) eqn:E; [|reflexivity].
  apply existsb_eqb_in in E. contradiction.
Qed.

Lemma update_db_no_new N fetch d : no_new fetch d -> fst (update_db N fetch d) = d.
Proof.
  intros Hn. unfold update_db.
  apply (run_games_unchanged _ _ _ (update_game_split N fetch)).
  intros g Hg. unfold upd_window.
  destruct (fetch g None) as [c|] eqn:Hc; [|reflexivity].
  destruct (numero c =? 0); [reflexivity|].
  specialize (Hn g c Hg Hc).
  destruct (Z.ltb_spec (max_numero (get_or_nil d g)) (numero c)); [lia|reflexivity].
Qed.

Lemma file_after_app f t1 t2 : file_after f (t1 ++ t2) = file_after (file_after f t1) t2.
Proof.
  revert f. induction t1 as [|[] t1 IH]; intros f; simpl; auto.
Qed.

Lemma updateDatabase_file parse stringify N fetch s d :
  parse s = Some d ->
  file_after (Some s) (updateDatabase parse stringify N fetch (Some s))
  = Some (stringify (fst (update_db N fetch d))).
Proof.
  intros Hp. unfold updateDatabase. rewrite Hp.
  destruct (update_db N fetch d) as [d' tr]. simpl.
  now rewrite file_after_app.
Qed.

Lemma bootstrap_db_get N fetch g :
  In g LOTTERY_GAMES -> js_get (fst (bootstrap_db N fetch)) g = boot_window N fetch g.
Proof.
  intros Hg. unfold bootstrap_db.
  rewrite (run_games_get _ (fun g _ => boot_window N fetch g) (fun g _ => boot_trace N fetch g)
             (boot_game_split N fetch)) by apply LOTTERY_GAMES_NoDup.
  apply existsb_eqb_in in Hg. rewrite Hg.
  destruct (boot_window N fetch g); reflexivity.
Qed.

Lemma boot_nums_perm L N :
  Permutation (boot_nums L N)
    (filter (fun k => 0 <? k) (range_incl (L - Z.of_nat N + 1) L)).
Proof.
  apply NoDup_Permutation.
  - apply boot_nums_NoDup.
  - apply NoDup_filter, range_incl_NoDup.
  - intros k. rewrite in_boot_nums, filter_In, in_range_incl, Z.ltb_lt. lia.
Qed.

(** * Claims *)

(** C1. In one incremental tick, for a supported game whose latest
    upstream contest is [L_api] and whose stored window (in storage shape,
    maximum [L_stored]) is served by an upstream answering the contest asked
    for: if [L_api <= L_stored] the window is unchanged and the only upstream
    request for the game is the latest-contest check; otherwise the new
    window is the stored records together with every available record
    numbered in [(L_stored, L_api]], cut to the [N] highest contest numbers,
    ascending. With [N = 5], stored [{6..10}], latest 12 and 11 missing,
    the new window is [{7,8,9,10,12}]. *)
Theorem update_tick_window :
  (forall N fetch d g c,
     In g LOTTERY_GAMES -> consistent fetch -> wf_window N (get_or_nil d g) ->
     fetch g None = Some c ->
     (numero c <= max_numero (get_or_nil d g) ->
        js_get (fst (update_db N fetch d)) g = js_get d g /\
        game_fetches g (snd (update_db N fetch d)) = [(g, None)]) /\
     (max_numero (get_or_nil d g) < numero c ->
        top_window N (candidates fetch g (get_or_nil d g) (numero c))
          (get_or_nil (fst (update_db N fetch d)) g))) /\
  get_or_nil (fst (update_db 5 (upstream 12 [11]) db_B)) "megasena"%string
  = map contest [7; 8; 9; 10; 12].
Proof.
  split; [|vm_compute; reflexivity].
  intros N fetch d g c Hg Hc Hwf Hf. split.
  - intros Hle. rewrite update_db_get by assumption.
    assert (Hu : upd_window N fetch g (get_or_nil d g) = None).
    { unfold upd_window. rewrite Hf. destruct (numero c =? 0); [reflexivity|].
      destruct (Z.ltb_spec (max_numero (get_or_nil d g)) (numero c)); [lia|reflexivity]. }
    rewrite Hu. split; [reflexivity|].
    unfold update_db.
    rewrite (run_games_fetches _ _ _ (update_game_split N fetch) (upd_trace_own N fetch))
      by apply LOTTERY_GAMES_NoDup.
    apply existsb_eqb_in in Hg. rewrite Hg.
    unfold upd_trace. rewrite Hf. destruct (numero c =? 0); [reflexivity|].
    destruct (Z.ltb_spec (max_numero (get_or_nil d g)) (numero c)); [lia|reflexivity].
  - intros Hlt. pose proof (upd_window_top N fetch g _ Hc Hwf c Hf Hlt) as Ht.
    unfold get_or_nil at 2. rewrite update_db_get by assumption.
    destruct (upd_window N fetch g (get_or_nil d g)); [exact Ht|].
    exact Ht.
Qed.

Lemma update_tick_window_witness :
  (In "megasena"%string LOTTERY_GAMES /\ consistent (upstream 12 [11]) /\
   wf_window 5 (get_or_nil db_B "megasena"%string) /\
   upstream 12 [11] "megasena"%string None = Some (contest 12)) /\
  top_window 5 (candidates (upstream 12 [11]) "megasena"%string (get_or_nil db_B "megasena"%string) 12)
    (get_or_nil (fst (update_db 5 (upstream 12 [11]) db_B)) "megasena").
Proof.
  assert (Hc : consistent (upstream 12 [11])).
  { intros g k c Hk. unfold upstream.
    destruct (_ && _ && _); [intros E; injection E as <-; reflexivity|discriminate]. }
  assert (Hwf : wf_window 5 (get_or_nil db_B "megasena"%string)).
  { vm_compute. split; [repeat constructor|split; [repeat constructor|lia]]. }
  split; [split; [simpl; tauto|split; [exact Hc|split; [exact Hwf|reflexivity]]]|].
  apply (proj1 update_tick_window 5%nat (upstream 12 [11]) db_B "megasena"%string (contest 12));
    [simpl; tauto|exact Hc|exact Hwf|reflexivity|vm_compute; reflexivity].
Defined.

(** C2. At bootstrap, a supported game whose latest contest [L] is fetched
    gets as window exactly the available records for the numbers
    [L, L-1, ..., L-N+1] that are positive, sorted ascending by contest
    number; a game whose latest fetch is absent is skipped (no key), with no
    effect on the other games; with [N = 5] and latest 10 the window is
    [{6,7,8,9,10}]. *)
Theorem bootstrap_window :
  (forall N fetch g c,
     In g LOTTERY_GAMES -> fetch g None = Some c -> numero c <> 0 ->
     exists w, js_get (fst (bootstrap_db N fetch)) g = Some w /\
       Sorted (fun a b => numero a <= numero b) w /\
       Permutation w
         (filter_some (map (fun k => fetch g (Some k))
            (filter (fun k => 0 <? k)
               (range_incl (numero c - Z.of_nat N + 1) (numero c)))))) /\
  (forall N fetch g,
     In g LOTTERY_GAMES -> fetch g None = None ->
     js_get (fst (bootstrap_db N fetch)) g = None) /\
  js_get (fst (bootstrap_db 5 (upstream 10 []))) "megasena"%string
  = Some (map contest [6; 7; 8; 9; 10]).
Proof.
  split; [|split; [|vm_compute; reflexivity]].
  - intros N fetch g c Hg Hf Hc. rewrite bootstrap_db_get by assumption.
    unfold boot_window. rewrite Hf.
    replace (numero c =? 0) with false by (symmetry; now apply Z.eqb_neq).
    eexists. split; [reflexivity|]. split; [apply sort_asc_sorted|].
    rewrite sort_by_perm. apply filter_some_perm, Permutation_map, boot_nums_perm.
  - intros N fetch g Hg Hf. rewrite bootstrap_db_get by assumption.
    unfold boot_window. now rewrite Hf.
Qed.

Lemma bootstrap_window_witness :
  (In "megasena"%string LOTTERY_GAMES /\
   upstream 10 [] "megasena"%string None = Some (contest 10) /\ numero (contest 10) <> 0) /\
  exists w, js_get (fst (bootstrap_db 5 (upstream 10 []))) "megasena"%string = Some w /\
    Sorted (fun a b => numero a <= numero b) w /\
    Permutation w
      (filter_some (map (fun k => upstream 10 [] "megasena"%string (Some k))
         (filter (fun k => 0 <? k) (range_incl (10 - Z.of_nat 5 + 1) 10)))).
Proof.
  split; [split; [simpl; tauto|split; [reflexivity|simpl; lia]]|].
  apply (proj1 bootstrap_window 5%nat (upstream 10 []) "megasena"%string (contest 10));
    [simpl; tauto|reflexivity|simpl; lia].
Defined.

(** C3. In every document reachable from the bootstrap through incremental
    ticks (whatever the upstream answers), every game's window holds at
    most [N = 500] records. *)
Theorem reachable_bound P d :
  reachable P d -> db_all (fun w => (List.length w <= CONTESTS_TO_STORE)%nat) d.
Proof.
  induction 1 as [f Hf|f d Hf _ IH].
  - apply (run_games_db_all (boot_game CONTESTS_TO_STORE f)
             (fun g _ => boot_window CONTESTS_TO_STORE f g)
             (fun g _ => boot_trace CONTESTS_TO_STORE f g)
             (boot_game_split CONTESTS_TO_STORE f)).
    + simpl. lia.
    + intros g w w' _. unfold boot_window.
      destruct (f g None) as [c|]; [|discriminate].
      destruct (numero c =? 0); [discriminate|].
      intros E. injection E as <-.
      rewrite (Permutation_length (sort_by_perm _ _)).
      etransitivity; [apply filter_some_length|].
      rewrite length_map. apply boot_nums_length.
    + apply db_all_nil.
  - apply (run_games_db_all (update_game CONTESTS_TO_STORE f)
             (upd_window CONTESTS_TO_STORE f) (upd_trace CONTESTS_TO_STORE f)
             (update_game_split CONTESTS_TO_STORE f)).
    + simpl. lia.
    + intros g w w' _ Hu.
      destruct (upd_window_some _ _ _ _ _ Hu) as (c & extra & _ & _ & ->).
      apply trim_length.
    + exact IH.
Qed.

Lemma reachable_bound_witness :
  reachable (fun _ => True) (fst (bootstrap_db CONTESTS_TO_STORE (upstream 10 []))) /\
  db_all (fun w => (List.length w <= CONTESTS_TO_STORE)%nat)
    (fst (bootstrap_db CONTESTS_TO_STORE (upstream 10 []))).
Proof.
  split; [apply reach_boot; exact I|].
  apply (reachable_bound (fun _ => True)). apply reach_boot. exact I.
Defined.

(** C4. In every document reachable from the bootstrap through incremental
    ticks, with an upstream that answers the contest asked for, no window
    holds two records with the same contest number; and a tick only adds
    records numbered strictly above the stored maximum of their game. *)
Theorem reachable_unique :
  (forall d, reachable consistent d -> db_all (fun w => NoDup (map numero w)) d) /\
  (forall fetch d g x,
     reachable consistent d -> consistent fetch ->
     In x (get_or_nil (fst (update_db CONTESTS_TO_STORE fetch d)) g) ->
     ~ In x (get_or_nil d g) ->
     max_numero (get_or_nil d g) < numero x).
Proof.
  split.
  - intros d Hr k w Hk. apply strict_sorted_NoDup.
    apply (reachable_wf d Hr k w Hk).
  - intros fetch d g x Hr Hc Hx Hn.
    destruct (in_dec String.string_dec g LOTTERY_GAMES) as [Hg|Hg].
    + unfold get_or_nil at 1 in Hx. rewrite update_db_get in Hx by assumption.
      destruct (upd_window _ _ g (get_or_nil d g)) as [w|] eqn:Hu; [|contradiction].
      eapply upd_window_new; try eassumption.
      apply db_all_get; [now apply reachable_wf|].
      split; [constructor|split; [constructor|simpl; lia]].
    + unfold get_or_nil at 1 in Hx. rewrite update_db_get_other in Hx by assumption.
      contradiction.
Qed.

Lemma reachable_unique_witness :
  let d := fst (bootstrap_db CONTESTS_TO_STORE (upstream 10 [])) in
  (reachable consistent d /\ consistent (upstream 12 [11]) /\
   In (contest 12) (get_or_nil (fst (update_db CONTESTS_TO_STORE (upstream 12 [11]) d)) "megasena"%string) /\
   ~ In (contest 12) (get_or_nil d "megasena"%string)) /\
  db_all (fun w => NoDup (map numero w)) d /\
  max_numero (get_or_nil d "megasena"%string) < numero (contest 12).
Proof.
  intros d.
  assert (Hc10 : consistent (upstream 10 [])).
  { intros g k c Hk. unfold upstream.
    destruct (_ && _ && _); [intros E; injection E as <-; reflexivity|discriminate]. }
  assert (Hc12 : consistent (upstream 12 [11])).
  { intros g k c Hk. unfold upstream.
    destruct (_ && _ && _); [intros E; injection E as <-; reflexivity|discriminate]. }
  assert (Hr : reachable consistent d) by (apply reach_boot; exact Hc10).
  assert (Hin : In (contest 12)
     (get_or_nil (fst (update_db CONTESTS_TO_STORE (upstream 12 [11]) d)) "megasena"%string))
    by (vm_compute; tauto).
  assert (Hnin : ~ In (contest 12) (get_or_nil d "megasena"%string))
    by (vm_compute; intuition discriminate).
  split; [tauto|]. split.
  - exact (proj1 reachable_unique d Hr).
  - exact (proj2 reachable_unique (upstream 12 [11]) d "megasena"%string (contest 12)
             Hr Hc12 Hin Hnin).
Defined.

(** C5. When [db.json] is missing or does not parse, [updateDatabase]
    logs an error and stops: no upstream request, no write, the file is left
    as it was. *)
Theorem update_read_failure parse stringify N fetch file :
  (file = None \/ exists s, file = Some s /\ parse s = None) ->
  writes (updateDatabase parse stringify N fetch file) = [] /\
  file_after file (updateDatabase parse stringify N fetch file) = file /\
  fetches (updateDatabase parse stringify N fetch file) = [] /\
  exists m, In (EffLog (LogError m)) (updateDatabase parse stringify N fetch file).
Proof.
  intros [->|(s & -> & Hp)]; unfold updateDatabase; [|rewrite Hp];
    (split; [reflexivity|split; [reflexivity|split; [reflexivity|]]]);
    eexists; simpl; right; right; left; reflexivity.
Qed.

Lemma update_read_failure_witness :
  (Some "{"%string = None \/
   exists s, Some "{"%string = Some s /\ (fun _ : string => @None Db) s = None) /\
  file_after (Some "{"%string)
    (updateDatabase (fun _ => None) (fun _ => ""%string) 5 (upstream 12 [])
       (Some "{"%string)) = Some "{"%string.
Proof.
  assert (H : Some "{"%string = None \/
              exists s, Some "{"%string = Some s /\ (fun _ : string => @None Db) s = None)
    by (right; exists "{"%string; split; reflexivity).
  split; [exact H|].
  exact (proj1 (proj2 (update_read_failure (fun _ => None) (fun _ => ""%string) 5%nat
                         (upstream 12 []) (Some "{"%string) H))).
Defined.

(** C6. Two immediate incremental runs with no new upstream contest leave
    [db.json], as written by the program, byte-for-byte unchanged (each run
    rewrites the same text). *)
Theorem update_idempotent parse stringify N f1 f2 d :
  parse (stringify d) = Some d -> no_new f1 d -> no_new f2 d ->
  file_after (Some (stringify d))
    (updateDatabase parse stringify N f1 (Some (stringify d))) = Some (stringify d) /\
  file_after
    (file_after (Some (stringify d))
       (updateDatabase parse stringify N f1 (Some (stringify d))))
    (updateDatabase parse stringify N f2
       (file_after (Some (stringify d))
          (updateDatabase parse stringify N f1 (Some (stringify d)))))
  = Some (stringify d).
Proof.
  intros Hp H1 H2.
  assert (E1 : file_after (Some (stringify d))
                 (updateDatabase parse stringify N f1 (Some (stringify d)))
               = Some (stringify d)).
  { rewrite (updateDatabase_file _ _ _ _ _ d Hp). now rewrite update_db_no_new. }
  split; [exact E1|]. rewrite E1.
  rewrite (updateDatabase_file _ _ _ _ _ d Hp). now rewrite update_db_no_new.
Qed.

Lemma update_idempotent_witness :
  let parse := fun s : string => if String.eqb s "db" then Some db_B else None in
  let stringify := fun _ : Db => "db"%string in
  let f := fun g n => if String.eqb g "megasena" then upstream 10 [] g n else None in
  (parse (stringify db_B) = Some db_B /\ no_new f db_B /\ no_new f db_B) /\
  file_after (Some (stringify db_B))
    (updateDatabase parse stringify 5 f (Some (stringify db_B))) = Some (stringify db_B) /\
  file_after
    (file_after (Some (stringify db_B))
       (updateDatabase parse stringify 5 f (Some (stringify db_B))))
    (updateDatabase parse stringify 5 f
       (file_after (Some (stringify db_B))
          (updateDatabase parse stringify 5 f (Some (stringify db_B)))))
  = Some (stringify db_B).
Proof.
  intros parse stringify f.
  assert (Hp : parse (stringify db_B) = Some db_B) by reflexivity.
  assert (Hn : no_new f db_B).
  { intros g c _ E. unfold f in E.
    destruct (String.eqb_spec g "megasena") as [->|]; [|discriminate].
    injection E as <-. apply Z.leb_le. reflexivity. }
  split; [tauto|].
  exact (update_idempotent parse stringify 5%nat f f db_B Hp Hn Hn).
Defined.

(** C7. A tick never loses a stored contest number unless the new window
    is full with [N] records all numbered strictly above it, whatever the
    upstream now answers for that contest. *)
Theorem update_no_downgrade N fetch d g k :
  In k (map numero (get_or_nil d g)) ->
  In k (map numero (get_or_nil (fst (update_db N fetch d)) g)) \/
  (List.length (get_or_nil (fst (update_db N fetch d)) g) = N /\
   Forall (fun y => k < numero y) (get_or_nil (fst (update_db N fetch d)) g)).
Proof.
  intros Hk.
  destruct (in_dec String.string_dec g LOTTERY_GAMES) as [Hg|Hg].
  - unfold get_or_nil at 1 2 3. rewrite update_db_get by assumption.
    destruct (upd_window N fetch g (get_or_nil d g)) as [w|] eqn:Hu; [|now left].
    destruct (upd_window_some _ _ _ _ _ Hu) as (c & extra & _ & _ & ->).
    apply trim_keeps. rewrite map_app. apply in_or_app. now left.
  - unfold get_or_nil at 1 2 3. rewrite update_db_get_other by assumption. now left.
Qed.

Lemma update_no_downgrade_witness :
  In 6 (map numero (get_or_nil db_B "megasena"%string)) /\
  (List.length (get_or_nil (fst (update_db 5 (upstream 12 [11]) db_B)) "megasena"%string) = 5%nat /\
   Forall (fun y => 6 < numero y)
     (get_or_nil (fst (update_db 5 (upstream 12 [11]) db_B)) "megasena"%string)).
Proof.
  assert (Hk : In 6 (map numero (get_or_nil db_B "megasena"%string))) by (simpl; tauto).
  split; [exact Hk|].
  destruct (update_no_downgrade 5%nat (upstream 12 [11]) db_B "megasena"%string 6 Hk) as [H|H];
    [vm_compute in H; intuition discriminate|exact H].
Defined.

(** C8 (code bug). The fetcher turns a transport failure, a non-2xx status
    and a payload with [numero = 0] into [null], but only the first two log a
    diagnostic: a 2xx payload with [numero = 0] yields [null] with no
    console output at all, while a 404 for the same request is logged. *)
Theorem fetch_zero_unlogged :
  fetchContestData (fun _ _ => NetResponse 200 (mkContest 0 "")) "megasena" (Some 3000)
  = (None, []) /\
  fetchContestData (fun _ _ => NetResponse 404 (mkContest 0 "")) "megasena" (Some 3000)
  = (None, [LogError "Erro ao buscar: Status"]) /\
  fetchContestData (fun _ _ => NetFailure "ECONNRESET") "megasena" (Some 3000)
  = (None, [LogError "Falha na requisicao: ECONNRESET"]).
Proof. repeat split; reflexivity. Qed.

(** C9. [GET /api/resultados/:gameName]: an unsupported game gets a 404
    without the store being read; a supported game gets its records sorted
    by descending contest number; an unreadable or unparsable store gives a
    500. *)
Theorem getGame_spec parse file gameName :
  (~ In gameName LOTTERY_GAMES ->
     status (fst (getGame parse file gameName)) = 404 /\
     reads (snd (getGame parse file gameName)) = 0%nat) /\
  (In gameName LOTTERY_GAMES -> forall s d, file = Some s -> parse s = Some d ->
     exists l, getGame parse file gameName = (mkResponse 200 (JsonContests l), [EffRead]) /\
       Sorted (fun a b => numero b <= numero a) l /\
       Permutation l (get_or_nil d gameName)) /\
  (In gameName LOTTERY_GAMES ->
     (file = None \/ exists s, file = Some s /\ parse s = None) ->
     status (fst (getGame parse file gameName)) = 500).
Proof.
  split; [|split].
  - intros Hn. unfold getGame.
    destruct (existsb (String.eqb gameName) LOTTERY_GAMES) eqn:E.
    + apply existsb_eqb_in in E. contradiction.
    + split; reflexivity.
  - intros Hg s d -> Hp. unfold getGame.
    apply existsb_eqb_in in Hg. rewrite Hg, Hp. simpl.
    eexists. split; [reflexivity|]. split; [|apply sort_by_perm].
    eapply Sorted_weaken; [|exact (sort_by_sorted cmp_desc _ cmp_desc_key _)].
    simpl. intros; lia.
  - intros Hg Hf. unfold getGame.
    apply existsb_eqb_in in Hg. rewrite Hg. simpl.
    destruct Hf as [->|(s & -> & Hp)]; [reflexivity|]. now rewrite Hp.
Qed.

Lemma getGame_spec_witness :
  (~ In "loteca"%string LOTTERY_GAMES /\
   status (fst (getGame (fun _ => Some db_B) (Some "{}"%string) "loteca")) = 404) /\
  (In "megasena"%string LOTTERY_GAMES /\
   status (fst (getGame (fun _ => None) (Some "{"%string) "megasena")) = 500).
Proof.
  assert (Hn : ~ In "loteca"%string LOTTERY_GAMES) by (simpl; intuition discriminate).
  assert (Hg : In "megasena"%string LOTTERY_GAMES) by (simpl; tauto).
  split; split; try assumption.
  - exact (proj1 (proj1 (getGame_spec (fun _ => Some db_B) (Some "{}"%string) "loteca") Hn)).
  - apply (proj2 (proj2 (getGame_spec (fun _ => None) (Some "{"%string) "megasena")) Hg).
    right. exists "{"%string. split; reflexivity.
Defined.

(** C10. A supported game with no key in the store, or an empty window,
    is answered with status 200 and an empty array. *)
Theorem getGame_missing_game parse s d g :
  In g LOTTERY_GAMES -> parse s = Some d ->
  (js_get d g = None \/ js_get d g = Some []) ->
  getGame parse (Some s) g = (mkResponse 200 (JsonContests []), [EffRead]).
Proof.
  intros Hg Hp Hd. unfold getGame, get_or_nil.
  apply existsb_eqb_in in Hg. rewrite Hg, Hp. simpl.
  now destruct Hd as [->| ->].
Qed.

Lemma getGame_missing_game_witness :
  (In "quina"%string LOTTERY_GAMES /\ (fun _ : string => Some db_B) "{}"%string = Some db_B /\
   (js_get db_B "quina" = None \/ js_get db_B "quina" = Some [])) /\
  getGame (fun _ => Some db_B) (Some "{}"%string) "quina"
  = (mkResponse 200 (JsonContests []), [EffRead]).
Proof.
  assert (Hg : In "quina"%string LOTTERY_GAMES) by (simpl; tauto).
  assert (Hd : js_get db_B "quina" = None \/ js_get db_B "quina" = Some [])
    by (left; reflexivity).
  split; [split; [exact Hg|split; [reflexivity|exact Hd]]|].
  exact (getGame_missing_game (fun _ => Some db_B) "{}"%string db_B "quina" Hg eq_refl Hd).
Defined.

(** * Further properties of the code *)

(** ** Generic object lemmas *)

Lemma js_set_prop_set o k v : js_set o k v = prop_set o k v.
Proof.
  induction o as [|[k' v'] o IH]; simpl; [reflexivity|].
  now rewrite IH.
Qed.

Lemma prop_get_set {V} (o : list (string * V)) k v k' :
  prop_get (prop_set o k v) k' = if String.eqb k' k then Some v else prop_get o k'.
Proof.
  induction o as [|[k1 v1] o IH]; simpl.
  - reflexivity.
  - destruct (String.eqb_spec k k1) as [->|Hne]; simpl.
    + destruct (String.eqb k' k1); reflexivity.
    + rewrite IH. destruct (String.eqb_spec k' k1) as [->|]; [|reflexivity].
      destruct (String.eqb_spec k1 k); [congruence|reflexivity].
Qed.

Lemma prop_set_keys {V} (o : list (string * V)) k v :
  map fst (prop_set o k v) =
  if existsb (String.eqb k) (map fst o) then map fst o else map fst o ++ [k].
Proof.
  induction o as [|[k1 v1] o IH]; simpl; [reflexivity|].
  destruct (String.eqb_spec k k1) as [->|Hne]; simpl; [reflexivity|].
  rewrite IH. destruct (existsb _ _); reflexivity.
Qed.

Lemma writes_app t1 t2 : writes (t1 ++ t2) = writes t1 ++ writes t2.
Proof. unfold writes. apply flat_map_app. Qed.

Lemma run_games_writes step gs : forall d,
  (forall d g, writes (snd (step d g)) = []) ->
  writes (snd (run_games step d gs)) = [].
Proof.
  induction gs as [|a gs IH]; intros d Hs; simpl; [reflexivity|].
  destruct (step d a) as [d1 t1] eqn:E1.
  destruct (run_games step d1 gs) as [d2 t2] eqn:E2. simpl.
  rewrite writes_app.
  replace t1 with (snd (step d a)) by now rewrite E1.
  replace t2 with (snd (run_games step d1 gs)) by now rewrite E2.
  rewrite Hs, IH; auto.
Qed.

Lemma boot_game_writes N fetch d g : writes (snd (boot_game N fetch d g)) = [].
Proof.
  unfold boot_game. destruct (fetch g None) as [c|]; [|reflexivity].
  destruct (numero c =? 0); [reflexivity|]. simpl.
  rewrite writes_app. unfold writes at 1. rewrite flat_map_concat_map, map_map.
  simpl. induction (boot_nums (numero c) N); simpl; auto.
Qed.

Lemma update_game_writes N fetch d g : writes (snd (update_game N fetch d g)) = [].
Proof.
  rewrite update_game_split. simpl. unfold upd_trace.
  destruct (fetch g None) as [c|]; [|reflexivity].
  destruct (numero c =? 0); [reflexivity|].
  destruct (max_numero _ <? numero c); [|reflexivity].
  assert (H : writes (map (fun num => EffFetch g (Some num))
            (range_incl (max_numero (get_or_nil d g) + 1) (numero c))) = []).
  { induction (range_incl _ _); simpl; auto. }
  destruct (filter_some _); simpl; [exact H|].
  rewrite writes_app. simpl. rewrite H. reflexivity.
Qed.

Lemma fetches_of_game g tr g' n :
  Forall (fun e => match e with EffFetch g'' _ => g'' = g | _ => True end) tr ->
  In (g', n) (fetches tr) -> g' = g.
Proof.
  intros Hf H. unfold fetches in H. apply in_flat_map in H as (e & He & Hin).
  rewrite Forall_forall in Hf. specialize (Hf e He).
  destruct e; simpl in Hin; intuition congruence.
Qed.

Lemma boot_trace_own N fetch g (w : list Contest) g' n :
  In (g', n) (fetches ((fun g (_ : list Contest) => boot_trace N fetch g) g w)) -> g' = g.
Proof.
  simpl. apply fetches_of_game. unfold boot_trace.
  destruct (fetch g None) as [c|]; [destruct (numero c =? 0)|];
    repeat (apply Forall_app; split); repeat constructor.
  apply Forall_forall. intros e He. apply in_map_iff in He as (k & <- & _). reflexivity.
Qed.

Lemma filter_some_all_none {A B} (f : A -> option B) l :
  (forall k, In k l -> f k = None) -> filter_some (map f l) = [].
Proof.
  induction l as [|a l IH]; intros H; simpl; [reflexivity|].
  rewrite H by (now left). apply IH. intros k Hk. apply H. now right.
Qed.

Lemma strict_sorted_sort_desc l :
  Sorted (fun a b => numero a < numero b) l -> sort_by cmp_desc l = rev l.
Proof.
  intros Hs. apply Sorted_StronglySorted in Hs; [|intros x y z; lia].
  unfold sort_by in *.
  induction Hs as [|x l Hs IH Hf]; simpl; [reflexivity|].
  rewrite IH.
  assert (Hins : forall m, (forall y, In y m -> numero x < numero y) ->
            insert_by cmp_desc x m = m ++ [x]).
  { induction m as [|y m IHm]; intros Hm; simpl; [reflexivity|].
    replace (cmp_desc x y <=? 0) with false
      by (symmetry; apply Z.leb_gt; unfold cmp_desc; specialize (Hm y (or_introl eq_refl)); lia).
    rewrite IHm; [reflexivity|]. intros z Hz. apply Hm. now right. }
  apply Hins. intros y Hy. apply in_rev in Hy.
  rewrite Forall_forall in Hf. now apply Hf.
Qed.

Lemma fetches_app t1 t2 : fetches (t1 ++ t2) = fetches t1 ++ fetches t2.
Proof. unfold fetches. apply flat_map_app. Qed.

Lemma fetches_map g l :
  fetches (map (fun n => EffFetch g (Some n)) l) = map (fun n => (g, Some n)) l.
Proof. induction l as [|a l IH]; simpl; [reflexivity|]. unfold fetches in *. now rewrite IH. Qed.

Lemma request_list_NoDup (g : string) (l : list Z) :
  NoDup l -> NoDup (map (fun n => (g, Some n)) l).
Proof.
  intros H. apply Injective_map_NoDup; [|exact H].
  intros a b E. now injection E.
Qed.


Lemma boot_keys N fetch gs : forall d,
  NoDup gs -> (forall g, In g gs -> ~ In g (map fst d)) ->
  map fst (fst (run_games (boot_game N fetch) d gs))
  = map fst d ++ filter (latest_usable fetch) gs.
Proof.
  induction gs as [|a gs IH]; intros d Hnd Hd; simpl; [now rewrite app_nil_r|].
  inversion Hnd as [|? ? Ha Hgs]; subst.
  rewrite boot_game_split.
  destruct (run_games _ _ gs) as [d2 t2] eqn:Er. simpl.
  set (d1 := match boot_window N fetch a with Some w => js_set d a w | None => d end) in Er.
  replace d2 with (fst (run_games (boot_game N fetch) d1 gs)) by now rewrite Er.
  assert (Hk : map fst d1 = map fst d ++ if latest_usable fetch a then [a] else []).
  { unfold d1, boot_window, latest_usable.
    destruct (fetch a None) as [c|]; [|now rewrite app_nil_r].
    destruct (numero c =? 0); simpl; [now rewrite app_nil_r|].
    rewrite js_set_prop_set, prop_set_keys.
    destruct (existsb (String.eqb a) (map fst d)) eqn:E; [|reflexivity].
    apply existsb_eqb_in in E. exfalso. exact (Hd a (or_introl eq_refl) E). }
  rewrite IH; [|assumption|].
  - rewrite Hk, <- app_assoc. destruct (latest_usable fetch a); reflexivity.
  - intros g Hg. rewrite Hk. intros Hin. apply in_app_or in Hin as [Hin|Hin].
    + exact (Hd g (or_intror Hg) Hin).
    + destruct (latest_usable fetch a); [|contradiction].
      destruct Hin as [<-|[]]. contradiction.
Qed.

(** X1. [fetchContestData] resolves to [null] exactly when the request
    rejects, the status is not 2xx, or the payload's [numero] is 0; otherwise
    it resolves to the payload itself. *)
Theorem fetch_result_iff net game n :
  (fst (fetchContestData net game n) = None <->
   match net game (url_arg n) with
   | NetFailure _ => True
   | NetResponse status data => response_ok status = false \/ numero data = 0
   end) /\
  (forall c, fst (fetchContestData net game n) = Some c <->
   exists status, net game (url_arg n) = NetResponse status c /\
     response_ok status = true /\ numero c <> 0).
Proof.
  unfold fetchContestData, fetch_try.
  destruct (net game (url_arg n)) as [e|status data]; simpl.
  - split; [tauto|]. intros c. split; [discriminate|]. intros (st & E & _). discriminate.
  - destruct (response_ok status) eqn:Ho; simpl.
    + destruct (Z.eqb_spec (numero data) 0) as [Hz|Hz]; simpl.
      * split; [tauto|]. intros c. split; [discriminate|].
        intros (st & E & _ & Hc). injection E as _ <-. contradiction.
      * split; [split; [discriminate|intros [H|H]; [discriminate|contradiction]]|].
        intros c. split.
        -- intros E. injection E as <-. exists status. auto.
        -- intros (st & E & _ & _). injection E as _ <-. reflexivity.
    + split; [tauto|]. intros c. split; [discriminate|].
      intros (st & E & Hok & _). injection E as <- <-. congruence.
Qed.

(** X2. [fetchContestData] writes exactly one error line when the request
    rejects or the status is not 2xx, and writes no line at all otherwise
    (in particular not for a [numero = 0] payload). *)
Theorem fetch_logs net game n :
  ((exists m, snd (fetchContestData net game n) = [LogError m]) <->
   match net game (url_arg n) with
   | NetFailure _ => True
   | NetResponse status _ => response_ok status = false
   end) /\
  (snd (fetchContestData net game n) = [] <->
   match net game (url_arg n) with
   | NetFailure _ => False
   | NetResponse status _ => response_ok status = true
   end).
Proof.
  unfold fetchContestData, fetch_try.
  destruct (net game (url_arg n)) as [e|status data]; simpl.
  - split; split; try tauto; [intros _; eexists; reflexivity|discriminate].
  - destruct (response_ok status); simpl.
    + split; split.
      * intros (m & E). destruct (numero data =? 0); discriminate.
      * discriminate.
      * intros _. reflexivity.
      * destruct (numero data =? 0); reflexivity.
    + split; split.
      * intros _. reflexivity.
      * intros _. eexists. reflexivity.
      * discriminate.
      * discriminate.
Qed.

(** X3. [initializeDatabase] runs only when [db.json] is missing: then it
    writes the file exactly once, with the bootstrap document; when the file
    exists it neither requests upstream nor writes. So a second run after a
    first one is a no-op. *)
Theorem initialize_once stringify N fetch file :
  writes (initializeDatabase stringify N fetch file) =
    match file with
    | Some _ => []
    | None => [stringify (fst (bootstrap_db N fetch))]
    end /\
  (forall s, file = Some s -> fetches (initializeDatabase stringify N fetch file) = []) /\
  (let file1 := file_after file (initializeDatabase stringify N fetch file) in
   writes (initializeDatabase stringify N fetch file1) = [] /\
   fetches (initializeDatabase stringify N fetch file1) = []).
Proof.
  assert (Hw : writes (snd (bootstrap_db N fetch)) = [])
    by (apply run_games_writes, boot_game_writes).
  assert (Hf : file_after file (initializeDatabase stringify N fetch file) <> None).
  { unfold initializeDatabase. destruct file as [s|]; simpl; [discriminate|].
    destruct (bootstrap_db N fetch) as [d tr]. simpl.
    rewrite file_after_app. simpl. discriminate. }
  split; [|split].
  - unfold initializeDatabase. destruct file as [s|]; [reflexivity|].
    destruct (bootstrap_db N fetch) as [d tr] eqn:E. simpl in Hw |- *.
    rewrite writes_app, Hw. reflexivity.
  - intros s ->. reflexivity.
  - simpl. destruct (file_after _ _); [split; reflexivity|]. now exfalso.
Qed.

Lemma initialize_once_witness :
  (Some "{}"%string = Some "{}"%string) /\
  fetches (initializeDatabase (fun _ => ""%string) 5 (upstream 10 []) (Some "{}"%string)) = [].
Proof.
  split; [reflexivity|].
  exact (proj1 (proj2 (initialize_once (fun _ => ""%string) 5%nat (upstream 10 [])
                         (Some "{}"%string))) "{}"%string eq_refl).
Defined.

(** X4. The bootstrap document has a key for exactly the games whose
    latest contest could be fetched, in the order of [LOTTERY_GAMES]. *)
Theorem bootstrap_keys N fetch :
  map fst (fst (bootstrap_db N fetch)) = filter (latest_usable fetch) LOTTERY_GAMES.
Proof.
  unfold bootstrap_db. rewrite boot_keys; [reflexivity|apply LOTTERY_GAMES_NoDup|].
  intros g _ [].
Qed.

(** X5. At bootstrap, a game whose latest contest [L] is fetched gets the
    latest-contest request followed by one request for each positive number
    in [(L - N, L]], none twice. *)
Theorem bootstrap_requests N fetch g c :
  In g LOTTERY_GAMES -> fetch g None = Some c -> numero c <> 0 ->
  exists rest, game_fetches g (snd (bootstrap_db N fetch)) = (g, None) :: rest /\
    NoDup rest /\
    (forall p, In p rest <->
       exists k, p = (g, Some k) /\ 0 < k /\ numero c - Z.of_nat N < k <= numero c).
Proof.
  intros Hg Hf Hc. unfold bootstrap_db.
  rewrite (run_games_fetches _ (fun g _ => boot_window N fetch g)
             (fun g _ => boot_trace N fetch g) (boot_game_split N fetch)
             (boot_trace_own N fetch)) by apply LOTTERY_GAMES_NoDup.
  apply existsb_eqb_in in Hg. rewrite Hg. unfold boot_trace. rewrite Hf.
  replace (numero c =? 0) with false by (symmetry; now apply Z.eqb_neq).
  rewrite !fetches_app, fetches_map. simpl.
  eexists. split; [rewrite app_nil_r; reflexivity|]. split.
  - apply request_list_NoDup, boot_nums_NoDup.
  - intros p. rewrite in_map_iff. split.
    + intros (k & <- & Hk). apply in_boot_nums in Hk. exists k. auto.
    + intros (k & -> & Hk). exists k. split; [reflexivity|]. now apply in_boot_nums.
Qed.

Lemma bootstrap_requests_witness :
  (In "megasena"%string LOTTERY_GAMES /\
   upstream 10 [] "megasena"%string None = Some (contest 10) /\ numero (contest 10) <> 0) /\
  exists rest, game_fetches "megasena" (snd (bootstrap_db 5 (upstream 10 []))) =
    ("megasena"%string, None) :: rest /\ NoDup rest /\
    (forall p, In p rest <->
       exists k, p = ("megasena"%string, Some k) /\ 0 < k /\ numero (contest 10) - Z.of_nat 5 < k <= numero (contest 10)).
Proof.
  split; [split; [simpl; tauto|split; [reflexivity|simpl; lia]]|].
  apply (bootstrap_requests 5%nat (upstream 10 []) "megasena"%string (contest 10));
    [simpl; tauto|reflexivity|simpl; lia].
Defined.

(** X6. In a tick, a supported game whose latest contest [L_api] is above
    its stored maximum [L_stored] gets the latest-contest request followed
    by one request for each number in [(L_stored, L_api]], none twice. *)
Theorem update_requests N fetch d g c :
  In g LOTTERY_GAMES -> fetch g None = Some c -> numero c <> 0 ->
  max_numero (get_or_nil d g) < numero c ->
  exists rest, game_fetches g (snd (update_db N fetch d)) = (g, None) :: rest /\
    NoDup rest /\
    (forall p, In p rest <->
       exists k, p = (g, Some k) /\ max_numero (get_or_nil d g) < k <= numero c).
Proof.
  intros Hg Hf Hc Hlt. unfold update_db.
  rewrite (run_games_fetches _ _ _ (update_game_split N fetch) (upd_trace_own N fetch))
    by apply LOTTERY_GAMES_NoDup.
  apply existsb_eqb_in in Hg. rewrite Hg. unfold upd_trace. rewrite Hf.
  replace (numero c =? 0) with false by (symmetry; now apply Z.eqb_neq).
  replace (max_numero (get_or_nil d g) <? numero c) with true by (symmetry; now apply Z.ltb_lt).
  set (nums := range_incl (max_numero (get_or_nil d g) + 1) (numero c)).
  assert (Hn : fetches (EffFetch g None :: EffLog (LogInfo "Novos concursos encontrados")
                 :: map (fun num => EffFetch g (Some num)) nums)
               = (g, None) :: map (fun n => (g, Some n)) nums).
  { unfold fetches. simpl. f_equal. apply fetches_map. }
  exists (map (fun n => (g, Some n)) nums). split.
  - destruct (filter_some _); [exact Hn|].
    rewrite fetches_app, Hn. simpl. now rewrite app_nil_r.
  - split; [apply request_list_NoDup, range_incl_NoDup|].
    intros p. rewrite in_map_iff. unfold nums. split.
    + intros (k & <- & Hk). rewrite in_range_incl in Hk. exists k. split; [reflexivity|lia].
    + intros (k & -> & Hk). exists k. split; [reflexivity|]. rewrite in_range_incl. lia.
Qed.

Lemma update_requests_witness :
  (In "megasena"%string LOTTERY_GAMES /\
   upstream 12 [11] "megasena"%string None = Some (contest 12) /\ numero (contest 12) <> 0 /\
   max_numero (get_or_nil db_B "megasena") < numero (contest 12)) /\
  exists rest, game_fetches "megasena" (snd (update_db 5 (upstream 12 [11]) db_B)) =
    ("megasena"%string, None) :: rest /\ NoDup rest /\
    (forall p, In p rest <->
       exists k, p = ("megasena"%string, Some k) /\
         max_numero (get_or_nil db_B "megasena") < k <= numero (contest 12)).
Proof.
  split; [split; [simpl; tauto|split; [reflexivity|split; [simpl; lia|vm_compute; reflexivity]]]|].
  apply (update_requests 5%nat (upstream 12 [11]) db_B "megasena"%string (contest 12));
    [simpl; tauto|reflexivity|simpl; lia|vm_compute; reflexivity].
Defined.

(** X7. If every contest between the stored maximum and the upstream latest
    is unavailable, the tick leaves the game's entry exactly as it was
    (no trim, no re-sort), even though it requested them. *)
Theorem update_all_absent N fetch d g c :
  In g LOTTERY_GAMES -> fetch g None = Some c ->
  (forall k, max_numero (get_or_nil d g) < k <= numero c -> fetch g (Some k) = None) ->
  js_get (fst (update_db N fetch d)) g = js_get d g.
Proof.
  intros Hg Hf Hn. rewrite update_db_get by assumption.
  unfold upd_window. rewrite Hf.
  destruct (numero c =? 0); [reflexivity|].
  destruct (max_numero _ <? numero c); [|reflexivity].
  rewrite filter_some_all_none; [reflexivity|].
  intros k Hk. apply Hn. apply in_range_incl in Hk. lia.
Qed.

Lemma update_all_absent_witness :
  (In "megasena"%string LOTTERY_GAMES /\
   upstream 12 [11; 12] "megasena"%string None = Some (contest 12) /\
   (forall k, max_numero (get_or_nil db_B "megasena") < k <= numero (contest 12) ->
      upstream 12 [11; 12] "megasena"%string (Some k) = None)) /\
  js_get (fst (update_db 5 (upstream 12 [11; 12]) db_B)) "megasena" = js_get db_B "megasena".
Proof.
  assert (Hn : forall k, max_numero (get_or_nil db_B "megasena") < k <= numero (contest 12) ->
             upstream 12 [11; 12] "megasena"%string (Some k) = None).
  { intros k Hk. change (max_numero (get_or_nil db_B "megasena")) with 10 in Hk.
    change (numero (contest 12)) with 12 in Hk. unfold upstream.
    assert (k = 11 \/ k = 12) as [-> | ->] by lia; reflexivity. }
  split; [split; [simpl; tauto|split; [reflexivity|exact Hn]]|].
  exact (update_all_absent 5%nat (upstream 12 [11; 12]) db_B "megasena"%string (contest 12)
           ltac:(simpl; tauto) eq_refl Hn).
Defined.

Lemma update_keys_prefix N fetch gs : forall d,
  exists extra, map fst (fst (run_games (update_game N fetch) d gs)) = map fst d ++ extra /\
    incl extra gs.
Proof.
  induction gs as [|a gs IH]; intros d; simpl.
  - exists []. split; [now rewrite app_nil_r|]. intros x [].
  - rewrite update_game_split.
    destruct (run_games _ _ gs) as [d2 t2] eqn:Er. simpl.
    set (d1 := match upd_window N fetch a (get_or_nil d a) with
               | Some w => js_set d a w | None => d end) in Er.
    destruct (IH d1) as (e2 & He2 & Hi2). rewrite Er in He2. simpl in He2.
    assert (Hk : exists e1, map fst d1 = map fst d ++ e1 /\ incl e1 [a]).
    { unfold d1. destruct (upd_window _ _ _ _) as [w|].
      - rewrite js_set_prop_set, prop_set_keys.
        destruct (existsb _ _).
        + exists []. split; [now rewrite app_nil_r|]. intros x [].
        + exists [a]. split; [reflexivity|]. apply incl_refl.
      - exists []. split; [now rewrite app_nil_r|]. intros x []. }
    destruct Hk as (e1 & He1 & Hi1).
    exists (e1 ++ e2). split; [now rewrite He2, He1, app_assoc|].
    apply incl_app; intros x Hx; [apply Hi1 in Hx; destruct Hx as [<-|[]]; now left|].
    right. now apply Hi2.
Qed.

(** X8. A tick never removes or reorders keys of the store document: the
    old keys come first, in their order, followed only by supported games
    that were added; entries of keys outside [LOTTERY_GAMES] are untouched. *)
Theorem update_keys N fetch d :
  (exists extra, map fst (fst (update_db N fetch d)) = map fst d ++ extra /\
     incl extra LOTTERY_GAMES) /\
  (forall g, ~ In g LOTTERY_GAMES -> js_get (fst (update_db N fetch d)) g = js_get d g).
Proof.
  split; [apply update_keys_prefix|].
  intros g Hg. now apply update_db_get_other.
Qed.

Lemma update_keys_witness :
  ~ In "loteca"%string LOTTERY_GAMES /\
  js_get (fst (update_db 5 (upstream 12 [11]) (("loteca"%string, []) :: db_B))) "loteca"
  = js_get (("loteca"%string, []) :: db_B) "loteca".
Proof.
  assert (Hn : ~ In "loteca"%string LOTTERY_GAMES) by (simpl; intuition discriminate).
  split; [exact Hn|].
  exact (proj2 (update_keys 5%nat (upstream 12 [11]) (("loteca"%string, []) :: db_B))
           "loteca"%string Hn).
Defined.

(** X9. With a readable store, [updateDatabase] writes [db.json] exactly
    once, with the updated document, after all upstream requests (the write
    is followed only by the closing log line). *)
Theorem update_single_write parse stringify N fetch s d :
  parse s = Some d ->
  writes (updateDatabase parse stringify N fetch (Some s))
    = [stringify (fst (update_db N fetch d))] /\
  exists pre, updateDatabase parse stringify N fetch (Some s) =
    pre ++ [EffWrite (stringify (fst (update_db N fetch d)));
            EffLog (LogInfo "Atualizacao agendada concluida")].
Proof.
  intros Hp. unfold updateDatabase. rewrite Hp.
  assert (Hw : writes (snd (update_db N fetch d)) = [])
    by (apply run_games_writes, update_game_writes).
  destruct (update_db N fetch d) as [d' tr]. simpl in Hw |- *. split.
  - unfold writes at 1. simpl. fold (writes (tr ++ [EffWrite (stringify d');
        EffLog (LogInfo "Atualizacao agendada concluida")])).
    rewrite writes_app, Hw. reflexivity.
  - exists (EffLog (LogInfo "Iniciando atualizacao agendada") :: EffRead :: tr).
    reflexivity.
Qed.

Lemma update_single_write_witness :
  (fun _ : string => Some db_B) "{}"%string = Some db_B /\
  writes (updateDatabase (fun _ => Some db_B) (fun _ => "x"%string) 5 (upstream 12 [11])
            (Some "{}"%string)) = ["x"%string].
Proof.
  split; [reflexivity|].
  exact (proj1 (update_single_write (fun _ => Some db_B) (fun _ => "x"%string) 5%nat
                  (upstream 12 [11]) "{}"%string db_B eq_refl)).
Defined.

(** X10. For a document produced by the bootstrap and ticks, the
    single-game endpoint answers the exact reverse of the array the
    whole-document endpoint returns for that game: the descending sort only
    reverses the stored ascending window. *)
Theorem getGame_reverses_getAll parse s d g :
  reachable consistent d -> parse s = Some d -> In g LOTTERY_GAMES ->
  getAll parse (Some s) = ((200, JsonDatabase d), [EffRead]) /\
  getGame parse (Some s) g = (mkResponse 200 (JsonContests (rev (get_or_nil d g))), [EffRead]).
Proof.
  intros Hr Hp Hg. unfold getAll, getGame. rewrite Hp. split; [reflexivity|].
  apply existsb_eqb_in in Hg. rewrite Hg. simpl.
  rewrite strict_sorted_sort_desc; [reflexivity|].
  assert (Hw : wf_window CONTESTS_TO_STORE (get_or_nil d g)).
  { apply db_all_get; [now apply reachable_wf|].
    split; [constructor|split; [constructor|simpl; lia]]. }
  exact (proj1 Hw).
Qed.

Lemma getGame_reverses_getAll_witness :
  (reachable consistent (fst (bootstrap_db CONTESTS_TO_STORE (upstream 3 []))) /\
   (fun _ : string => Some (fst (bootstrap_db CONTESTS_TO_STORE (upstream 3 [])))) "db"%string
     = Some (fst (bootstrap_db CONTESTS_TO_STORE (upstream 3 []))) /\
   In "quina"%string LOTTERY_GAMES) /\
  getGame (fun _ => Some (fst (bootstrap_db CONTESTS_TO_STORE (upstream 3 [])))) (Some "db"%string)
    "quina" =
  (mkResponse 200 (JsonContests
     (rev (get_or_nil (fst (bootstrap_db CONTESTS_TO_STORE (upstream 3 []))) "quina"))),
   [EffRead]).
Proof.
  assert (Hc : consistent (upstream 3 [])).
  { intros g k c Hk H. unfold upstream in H.
    destruct (_ && _ && _); [now injection H as <-|discriminate]. }
  assert (Hr : reachable consistent (fst (bootstrap_db CONTESTS_TO_STORE (upstream 3 []))))
    by (apply reach_boot; exact Hc).
  split; [split; [exact Hr|split; [reflexivity|simpl; tauto]]|].
  exact (proj2 (getGame_reverses_getAll
                  (fun _ => Some (fst (bootstrap_db CONTESTS_TO_STORE (upstream 3 []))))
                  "db"%string _ "quina"%string Hr eq_refl ltac:(simpl; tauto))).
Defined.


Lemma monitor_step_fst axios ts r nome url :
  fst (monitor_step axios ts r (nome, url)) = prop_set r nome (monitor_entry axios ts url).
Proof. unfold monitor_step, monitor_entry. now destruct (axios url). Qed.

Lemma monitor_step_writes axios ts r l : mon_writes (snd (monitor_step axios ts r l)) = [].
Proof. destruct l as [nome url]. unfold monitor_step. now destruct (axios url). Qed.

Lemma mon_writes_app t1 t2 : mon_writes (t1 ++ t2) = mon_writes t1 ++ mon_writes t2.
Proof. unfold mon_writes. apply flat_map_app. Qed.

Lemma monitor_loop_split axios ts r l ls :
  monitor_loop axios ts r (l :: ls) =
  (fst (monitor_loop axios ts (fst (monitor_step axios ts r l)) ls),
   snd (monitor_step axios ts r l) ++
   snd (monitor_loop axios ts (fst (monitor_step axios ts r l)) ls)).
Proof.
  change (monitor_loop axios ts r (l :: ls)) with
    (let (r1, t1) := monitor_step axios ts r l in
     let (r2, t2) := monitor_loop axios ts r1 ls in (r2, t1 ++ t2)).
  destruct (monitor_step axios ts r l) as [r1 t1]. simpl.
  now destruct (monitor_loop axios ts r1 ls).
Qed.

Lemma monitor_loop_writes axios ts ls : forall r,
  mon_writes (snd (monitor_loop axios ts r ls)) = [].
Proof.
  induction ls as [|l ls IH]; intros r; [reflexivity|].
  rewrite monitor_loop_split. simpl. now rewrite mon_writes_app, monitor_step_writes, IH.
Qed.

Lemma monitor_loop_keys axios ts ls : forall r,
  NoDup (map fst r ++ map fst ls) ->
  map fst (fst (monitor_loop axios ts r ls)) = map fst r ++ map fst ls.
Proof.
  induction ls as [|[nome url] ls IH]; intros r Hnd.
  - simpl. now rewrite app_nil_r.
  - rewrite monitor_loop_split, monitor_step_fst. cbn [fst map].
    rewrite IH; rewrite prop_set_keys.
    + assert (Hx : existsb (String.eqb nome) (map fst r) = false).
      { destruct (existsb _ _) eqn:E; [|reflexivity].
        apply existsb_eqb_in in E. apply NoDup_remove_2 in Hnd.
        exfalso. apply Hnd. apply in_or_app. now left. }
      rewrite Hx, <- app_assoc. reflexivity.
    + assert (Hx : existsb (String.eqb nome) (map fst r) = false).
      { destruct (existsb _ _) eqn:E; [|reflexivity].
        apply existsb_eqb_in in E. apply NoDup_remove_2 in Hnd.
        exfalso. apply Hnd. apply in_or_app. now left. }
      rewrite Hx, <- app_assoc. exact Hnd.
Qed.

Lemma monitor_loop_get_other axios ts ls : forall r k,
  ~ In k (map fst ls) ->
  prop_get (fst (monitor_loop axios ts r ls)) k = prop_get r k.
Proof.
  induction ls as [|[nome url] ls IH]; intros r k Hk; [reflexivity|].
  rewrite monitor_loop_split, monitor_step_fst. cbn [fst].
  rewrite IH by (simpl in Hk; tauto). rewrite prop_get_set.
  destruct (String.eqb_spec k nome) as [->|]; [simpl in Hk; tauto|reflexivity].
Qed.

Lemma monitor_loop_get axios ts ls : forall r nome url,
  NoDup (map fst ls) -> In (nome, url) ls ->
  prop_get (fst (monitor_loop axios ts r ls)) nome = Some (monitor_entry axios ts url).
Proof.
  induction ls as [|[n0 u0] ls IH]; intros r nome url Hnd Hin; [destruct Hin|].
  inversion Hnd as [|? ? Hn0 Hnd']; subst.
  rewrite monitor_loop_split, monitor_step_fst. cbn [fst].
  destruct Hin as [E|Hin].
  - injection E as <- <-.
    rewrite monitor_loop_get_other by assumption.
    rewrite prop_get_set, String.eqb_refl. reflexivity.
  - now apply IH.
Qed.

Lemma loterias_NoDup : NoDup (map fst loterias).
Proof. simpl. repeat constructor; simpl; intuition discriminate. Qed.

(** X11. [fetchLoteriaData] writes [loterias.json] exactly once, with the
    serialised results object, and that object has one key per entry of
    [loterias], in the list's order, whatever the requests return. *)
Theorem monitor_output stringify_results axios ts :
  map fst (fst (fetchLoteriaData stringify_results axios ts)) = map fst loterias /\
  mon_writes (snd (fetchLoteriaData stringify_results axios ts)) =
    [("loterias.json"%string, stringify_results (fst (fetchLoteriaData stringify_results axios ts)))].
Proof.
  unfold fetchLoteriaData.
  pose proof (monitor_loop_keys axios ts loterias [] loterias_NoDup) as Hk.
  pose proof (monitor_loop_writes axios ts loterias []) as Hw.
  destruct (monitor_loop axios ts [] loterias) as [r tr]. simpl in Hk, Hw |- *.
  split; [exact Hk|]. rewrite mon_writes_app, Hw. reflexivity.
Qed.

(** X12. In the written object, each lottery's entry carries the run's
    timestamp under [ultimaAtualizacao]. After a successful request it
    keeps every other field of the response data unchanged. After a failed
    request it is exactly [{erro: message, ultimaAtualizacao: timestamp}]. *)
Theorem monitor_entries stringify_results axios ts nome url :
  In (nome, url) loterias ->
  exists entry,
    prop_get (fst (fetchLoteriaData stringify_results axios ts)) nome = Some entry /\
    prop_get entry "ultimaAtualizacao" = Some (JStr ts) /\
    (forall data, axios url = AxiosOk data ->
       forall k, k <> "ultimaAtualizacao"%string -> prop_get entry k = prop_get data k) /\
    (forall m, axios url = AxiosErr m ->
       entry = [("erro"%string, JStr m); ("ultimaAtualizacao"%string, JStr ts)]).
Proof.
  intros Hin. exists (monitor_entry axios ts url). split.
  - unfold fetchLoteriaData.
    pose proof (monitor_loop_get axios ts loterias [] nome url loterias_NoDup Hin) as Hg.
    destruct (monitor_loop axios ts [] loterias) as [r tr]. exact Hg.
  - unfold monitor_entry. split; [|split].
    + destruct (axios url); [rewrite prop_get_set|]; reflexivity.
    + intros data E k Hk. rewrite E, prop_get_set.
      now destruct (String.eqb_spec k "ultimaAtualizacao").
    + intros m E. now rewrite E.
Qed.

Lemma monitor_entries_witness :
  In ("quina"%string, "https://servicebus2.caixa.gov.br/portaldeloterias/api/quina"%string)
     loterias /\
  prop_get (fst (fetchLoteriaData (fun _ => "out"%string) (fun _ => AxiosErr "timeout")
                   "2024-01-01T21:00:00.000Z")) "quina"
  = Some [("erro"%string, JStr "timeout"); ("ultimaAtualizacao"%string,
          JStr "2024-01-01T21:00:00.000Z")].
Proof.
  assert (Hin : In ("quina"%string,
                    "https://servicebus2.caixa.gov.br/portaldeloterias/api/quina"%string)
                   loterias) by (simpl; tauto).
  split; [exact Hin|].
  destruct (monitor_entries (fun _ => "out"%string) (fun _ => AxiosErr "timeout")
              "2024-01-01T21:00:00.000Z" _ _ Hin) as (e & He & _ & _ & Herr).
  rewrite He, (Herr "timeout"%string eq_refl). reflexivity.
Defined.
